(** * Happy English: the correction handlers of the two App variants

    The repository holds two variants of one React component:
    - [src/App.tsx] asks the model for three labeled sections and cuts
      them out of the answer with three regular expressions
      (module [Labeled]);
    - the second variant asks for JSON, decodes it with [JSON.parse] and
      validates it with a zod schema (module [Structured]).

    Strings are sequences of UTF-16 code units, as in JavaScript.  The
    component's [useState] cells form the record [State]; a handler is a
    function on that record.  [localStorage] is a finite map. *)

From Stdlib Require Import Strings.String Strings.Ascii.
From Stdlib Require Import NArith Lia.
From stdpp Require Import base option list gmap.

Local Open Scope N_scope.
Set Warnings "-register-all".

(** ** JavaScript strings *)

(** A UTF-16 code unit. *)
Definition char : Type := N.

Abbreviation jsstring := (list N).

(** The code units of an ASCII literal. *)
Fixpoint js (s : string) : jsstring :=
  match s with
  | EmptyString => []
  | String a s' => N_of_ascii a :: js s'
  end.

Definition LF : char := 10.
Definition DQUOTE : char := 34.

(** Lines of a template literal, joined by line feeds. *)
Fixpoint unlines (ls : list jsstring) : jsstring :=
  match ls with
  | [] => []
  | [l] => l
  | l :: ls' => l ++ LF :: unlines ls'
  end.

(** ECMAScript [WhiteSpace] and [LineTerminator] code points: what
    [String.prototype.trim] strips and what [\s] matches. *)
Definition isWhiteSpace (c : char) : bool :=
  (c =? 9) || (c =? 10) || (c =? 11) || (c =? 12) || (c =? 13) || (c =? 32)
  || (c =? 160) || (c =? 5760) || ((8192 <=? c) && (c <=? 8202))
  || (c =? 8232) || (c =? 8233) || (c =? 8239) || (c =? 8287)
  || (c =? 12288) || (c =? 65279).

Fixpoint trimStart (s : jsstring) : jsstring :=
  match s with
  | c :: s' => if isWhiteSpace c then trimStart s' else s
  | [] => []
  end.

Definition trimEnd (s : jsstring) : jsstring :=
  reverse (trimStart (reverse s)).

(** [String.prototype.trim]. *)
Definition trim (s : jsstring) : jsstring := trimEnd (trimStart s).

(** Truthiness of a string: [''] is falsy. *)
Definition truthy (s : jsstring) : bool :=
  match s with [] => false | _ => true end.

(** A string with no white space at either end. *)
Definition trimmed (s : jsstring) : Prop :=
  (forall c, head s = Some c -> isWhiteSpace c = false) /\
  (forall c, last s = Some c -> isWhiteSpace c = false).

(** ** Regular expressions

    The fragment of ECMAScript patterns that [App.tsx] uses, with the
    backtracking semantics of the language: a matcher takes the state
    reached so far and a continuation, and the first alternative whose
    continuation succeeds wins. *)

Inductive regex : Type :=
| Chars (p : jsstring)                      (* literal pattern characters *)
| Star (greedy : bool) (cls : char -> bool) (* [cls*] and [cls*?] *)
| Group (r : regex)                         (* capturing group 1 *)
| Lookahead (r : regex)                     (* [(?=r)] *)
| Alt (r1 r2 : regex)                       (* [r1|r2] *)
| Dollar                                    (* [$], no [m] flag *)
| Seq (r1 r2 : regex).

(** The part of the input not yet consumed, and capture 1. *)
Record MatchState : Type := mkMatch {
  rest : jsstring;
  group1 : option jsstring
}.

Definition Continuation : Type := MatchState -> option MatchState.

Fixpoint match_chars (p s : jsstring) : option jsstring :=
  match p, s with
  | [], _ => Some s
  | c :: p', x :: s' => if c =? x then match_chars p' s' else None
  | _ :: _, [] => None
  end.

(** [cls*]: as many characters as possible first. *)
Fixpoint star_greedy (cls : char -> bool) (k : Continuation)
    (s : jsstring) (g : option jsstring) : option MatchState :=
  match s with
  | x :: s' =>
      if cls x then
        match star_greedy cls k s' g with
        | Some y => Some y
        | None => k (mkMatch s g)
        end
      else k (mkMatch s g)
  | [] => k (mkMatch [] g)
  end.

(** [cls*?]: as few characters as possible first. *)
Fixpoint star_lazy (cls : char -> bool) (k : Continuation)
    (s : jsstring) (g : option jsstring) : option MatchState :=
  match k (mkMatch s g) with
  | Some y => Some y
  | None =>
      match s with
      | x :: s' => if cls x then star_lazy cls k s' g else None
      | [] => None
      end
  end.

Fixpoint matcher (r : regex) (x : MatchState) (k : Continuation)
    : option MatchState :=
  match r with
  | Chars p =>
      match match_chars p (rest x) with
      | Some s' => k (mkMatch s' (group1 x))
      | None => None
      end
  | Star true cls => star_greedy cls k (rest x) (group1 x)
  | Star false cls => star_lazy cls k (rest x) (group1 x)
  | Group r1 =>
      matcher r1 x (fun y =>
        k (mkMatch (rest y)
             (Some (take (length (rest x) - length (rest y)) (rest x)))))
  | Lookahead r1 =>
      match matcher r1 x Some with
      | Some y => k (mkMatch (rest x) (group1 y))
      | None => None
      end
  | Alt r1 r2 =>
      match matcher r1 x k with
      | Some y => Some y
      | None => matcher r2 x k
      end
  | Dollar =>
      match rest x with
      | [] => k x
      | _ :: _ => None
      end
  | Seq r1 r2 => matcher r1 x (fun y => matcher r2 y k)
  end.

(** [String.prototype.match] with a pattern that has no [g] flag: the
    match at the leftmost start index, tried from 0 to the length of the
    text.  The result is element 1 of the match array ([None] inside for
    [undefined]); the outer [None] is JavaScript's [null]. *)
Fixpoint str_match (r : regex) (text : jsstring) : option (option jsstring) :=
  match matcher r (mkMatch text None) Some with
  | Some y => Some (group1 y)
  | None =>
      match text with
      | [] => None
      | _ :: text' => str_match r text'
      end
  end.

(** [\s] and [[\s\S]]. *)
Definition cls_s : char -> bool := isWhiteSpace.
Definition cls_sS : char -> bool := fun c => isWhiteSpace c || negb (isWhiteSpace c).

(** ** The component state *)

Record CorrectionResult : Type := mkResult {
  correctedText : jsstring;
  wordUsage : jsstring;
  explanation : jsstring
}.

Record State : Type := mkState {
  apiKey : jsstring;
  showSettings : bool;
  tempApiKey : jsstring;
  inputText : jsstring;
  result : option CorrectionResult;
  loading : bool;
  error : jsstring;
  simpleView : bool
}.

Definition setApiKey (v : jsstring) (s : State) : State :=
  mkState v (showSettings s) (tempApiKey s) (inputText s) (result s)
    (loading s) (error s) (simpleView s).
Definition setShowSettings (v : bool) (s : State) : State :=
  mkState (apiKey s) v (tempApiKey s) (inputText s) (result s)
    (loading s) (error s) (simpleView s).
Definition setTempApiKey (v : jsstring) (s : State) : State :=
  mkState (apiKey s) (showSettings s) v (inputText s) (result s)
    (loading s) (error s) (simpleView s).
Definition setInputText (v : jsstring) (s : State) : State :=
  mkState (apiKey s) (showSettings s) (tempApiKey s) v (result s)
    (loading s) (error s) (simpleView s).
Definition setResult (v : option CorrectionResult) (s : State) : State :=
  mkState (apiKey s) (showSettings s) (tempApiKey s) (inputText s) v
    (loading s) (error s) (simpleView s).
Definition setLoading (v : bool) (s : State) : State :=
  mkState (apiKey s) (showSettings s) (tempApiKey s) (inputText s) (result s)
    v (error s) (simpleView s).
Definition setError (v : jsstring) (s : State) : State :=
  mkState (apiKey s) (showSettings s) (tempApiKey s) (inputText s) (result s)
    (loading s) v (simpleView s).
Definition setSimpleView (v : bool) (s : State) : State :=
  mkState (apiKey s) (showSettings s) (tempApiKey s) (inputText s) (result s)
    (loading s) (error s) v.

(** The [useState] initial values. *)
Definition initialState : State :=
  mkState [] false [] [] None false [] false.

(** ** Local storage and the credential *)

Abbreviation Storage := (gmap jsstring jsstring).

Definition API_KEY_ITEM : jsstring := js "gemini_api_key".

Definition getItem (k : jsstring) (st : Storage) : option jsstring := st !! k.
Definition setItem (k v : jsstring) (st : Storage) : Storage := <[k := v]> st.

(** The [useEffect] that runs once when the component mounts. *)
Definition onMount (st : Storage) (s : State) : State :=
  match getItem API_KEY_ITEM st with
  | Some savedApiKey =>
      if truthy savedApiKey then setApiKey savedApiKey s
      else setShowSettings true s
  | None => setShowSettings true s
  end.

(** [handleSaveApiKey], the same in both variants. *)
Definition handleSaveApiKey (s : State) (st : Storage) : State * Storage :=
  if truthy (trim (tempApiKey s)) then
    (setTempApiKey [] (setShowSettings false (setApiKey (trim (tempApiKey s)) s)),
     setItem API_KEY_ITEM (trim (tempApiKey s)) st)
  else (s, st).

(** ** The remote call *)

(** What the [catch] block can receive. *)
Inductive Exn : Type :=
| ApiError      (* the client constructor or [generateContent] threw *)
| NoResponse    (* [Error('No response from API')] *)
| TypeError     (* a method call on [undefined] *)
| SyntaxError   (* thrown by [JSON.parse] *)
| ZodError.     (* thrown by [correctionSchema.parse] *)

(** How the awaited [generateContent] call settles: it rejects, or it
    resolves to a response whose [text] is a string or [undefined]. *)
Inductive ApiOutcome : Type :=
| ApiRejects
| ApiResolves (text : option jsstring).

(** A [try] body either completes with a value or throws. *)
Definition Try (A : Type) : Type := Exn + A.

Definition throw {A : Type} (e : Exn) : Try A := inl e.
Definition ok {A : Type} (a : A) : Try A := inr a.
Definition bind {A B : Type} (m : Try A) (f : A -> Try B) : Try B :=
  match m with
  | inl e => inl e
  | inr a => f a
  end.

Notation "'try!' x := m 'in' k" := (bind m (fun x => k))
  (at level 10, x name, m at level 100, k at level 200).

(** [await ai.models.generateContent(...)] followed by
    [const text = response.text || ''] and the emptiness check. *)
Definition responseText (o : ApiOutcome) : Try jsstring :=
  match o with
  | ApiRejects => throw ApiError
  | ApiResolves t =>
      let text := match t with
                  | Some v => if truthy v then v else []
                  | None => []
                  end in
      if negb (truthy text) then throw NoResponse else ok text
  end.

Definition GENERIC_ERROR : jsstring :=
  js "Failed to get correction. Please check your API key and try again.".
Definition NO_KEY_ERROR : jsstring :=
  js "Please set your Google API key first.".

(** What a run of [handleCorrect] leaves behind: the state after its last
    update, the states rendered on the way (the one pending during the
    await, when there is one), the requests sent with their credential,
    and what went to [console.error]. *)
Record Run (Req : Type) : Type := mkRun {
  final : State;
  rendered : list State;
  calls : list (jsstring * Req);
  console : list Exn
}.
Arguments mkRun {Req}.
Arguments final {Req}.
Arguments rendered {Req}.
Arguments calls {Req}.
Arguments console {Req}.

(** The handler up to its [await]: it returned early, or it is suspended
    on a request. *)
Inductive Submit (Req : Type) : Type :=
| Rejected (s : State)
| Pending (s : State) (key : jsstring) (req : Req).
Arguments Rejected {Req}.
Arguments Pending {Req}.

(** The [catch] and [finally] blocks around a [try] body that ends in
    [setResult]. *)
Definition settle (body : Try CorrectionResult) (s : State) : State * list Exn :=
  match body with
  | inr r => (setLoading false (setResult (Some r) s), [])
  | inl err => (setLoading false (setError GENERIC_ERROR s), [err])
  end.

Definition run {Req : Type} (begin : State -> Submit Req)
    (resume : ApiOutcome -> State -> State * list Exn)
    (api : jsstring -> Req -> ApiOutcome) (s : State) : Run Req :=
  match begin s with
  | Rejected s' => mkRun s' [] [] []
  | Pending s' key req =>
      let (s'', logged) := resume (api key req) s' in
      mkRun s'' [s'] [(key, req)] logged
  end.

(** ** Labeled-section variant ([src/App.tsx]) *)

Module Labeled.

Record Request : Type := mkRequest {
  model : jsstring;
  contents : jsstring
}.

Definition EMPTY_INPUT_ERROR : jsstring :=
  js "Please enter a sentence to correct.".

Definition CORRECTED_TEXT : jsstring := js "CORRECTED_TEXT:".
Definition WORD_USAGE : jsstring := js "WORD_USAGE:".
Definition EXPLANATION : jsstring := js "EXPLANATION:".

Definition NO_CORRECTION : jsstring := js "No correction found".
Definition NO_WORD_USAGE : jsstring := js "No word usage information found".
Definition NO_EXPLANATION : jsstring := js "No explanation found".

Definition prompt (inputText : jsstring) : jsstring :=
  unlines
    [ js "You are an English grammar correction assistant. Analyze the following sentence and provide:";
      [];
      js "1. CORRECTED_TEXT: The grammatically correct version of the sentence (simple and concise, remove unnecessary words)";
      js "2. WORD_USAGE: Identify words used incorrectly and explain the correct word type/usage";
      js "3. EXPLANATION: Explain how to make the sentence correct";
      [];
      js "Input sentence: " ++ DQUOTE :: inputText ++ [DQUOTE];
      [];
      js "Format your response EXACTLY as follows:";
      js "CORRECTED_TEXT:";
      js "[corrected sentence here]";
      [];
      js "WORD_USAGE:";
      js "[word usage corrections here]";
      [];
      js "EXPLANATION:";
      js "[explanation here]" ].

(** The pattern [/CORRECTED_TEXT:\s*([\s\S]*?)(?=WORD_USAGE:|$)/]. *)
Definition reCorrected : regex :=
  Seq (Chars CORRECTED_TEXT)
    (Seq (Star true cls_s)
       (Seq (Group (Star false cls_sS))
          (Lookahead (Alt (Chars WORD_USAGE) Dollar)))).

(** The pattern [/WORD_USAGE:\s*([\s\S]*?)(?=EXPLANATION:|$)/]. *)
Definition reWordUsage : regex :=
  Seq (Chars WORD_USAGE)
    (Seq (Star true cls_s)
       (Seq (Group (Star false cls_sS))
          (Lookahead (Alt (Chars EXPLANATION) Dollar)))).

(** The pattern [/EXPLANATION:\s*(G)/], whose group [G] is the greedy
    [[\s\S]*]. *)
Definition reExplanation : regex :=
  Seq (Chars EXPLANATION)
    (Seq (Star true cls_s) (Group (Star true cls_sS))).

(** [m ? m[1].trim() : placeholder]; calling [trim] on [undefined]
    throws. *)
Definition section (m : option (option jsstring)) (placeholder : jsstring)
    : Try jsstring :=
  match m with
  | Some (Some g) => ok (trim g)
  | Some None => throw TypeError
  | None => ok placeholder
  end.

(** The three matches and the object handed to [setResult]. *)
Definition parseResponse (text : jsstring) : Try CorrectionResult :=
  let correctedMatch := str_match reCorrected text in
  let wordUsageMatch := str_match reWordUsage text in
  let explanationMatch := str_match reExplanation text in
  try! c := section correctedMatch NO_CORRECTION in
  try! w := section wordUsageMatch NO_WORD_USAGE in
  try! e := section explanationMatch NO_EXPLANATION in
  ok (mkResult c w e).

(** The argument of [generateContent]. *)
Definition request (inputText : jsstring) : Request :=
  mkRequest (js "gemini-2.0-flash-exp") (prompt inputText).

Definition handleCorrect_begin (s : State) : Submit Request :=
  if negb (truthy (trim (inputText s))) then
    Rejected (setError EMPTY_INPUT_ERROR s)
  else if negb (truthy (apiKey s)) then
    Rejected (setError NO_KEY_ERROR (setShowSettings true s))
  else
    Pending (setResult None (setError [] (setLoading true s)))
      (apiKey s) (request (inputText s)).

(** The [try] block from the settled call on. *)
Definition tryBody (o : ApiOutcome) : Try CorrectionResult :=
  try! text := responseText o in parseResponse text.

Definition handleCorrect_resume (o : ApiOutcome) (s : State)
    : State * list Exn :=
  settle (tryBody o) s.

Definition handleCorrect (api : jsstring -> Request -> ApiOutcome)
    (s : State) : Run Request :=
  run handleCorrect_begin handleCorrect_resume api s.

End Labeled.

(** ** JSON values and [JSON.parse]

    [JSON.parse] is a built-in of the language; this is its grammar
    (ECMA-404).  A number keeps its lexeme: the schema below only asks
    whether a value is a string.  An object keeps its members in source
    order; reading a property takes the last member of that name, as a
    later duplicate overwrites an earlier one. *)

Inductive json : Type :=
| JNull
| JBool (b : bool)
| JNumber (lexeme : jsstring)
| JString (s : jsstring)
| JArray (elements : list json)
| JObject (members : list (jsstring * json)).

Definition code (a : ascii) : char := N_of_ascii a.
Definition BACKSLASH : char := 92.

Fixpoint skip_ws (s : jsstring) : jsstring :=
  match s with
  | c :: s' =>
      if (c =? 32) || (c =? 9) || (c =? 10) || (c =? 13) then skip_ws s' else s
  | [] => []
  end.

Definition isDigit (c : char) : bool := (48 <=? c) && (c <=? 57).

Definition hexDigit (c : char) : option N :=
  if isDigit c then Some (c - 48)
  else if (97 <=? c) && (c <=? 102) then Some (c - 87)
  else if (65 <=? c) && (c <=? 70) then Some (c - 55)
  else None.

Definition hex4 (a b c d : char) : option char :=
  match hexDigit a, hexDigit b, hexDigit c, hexDigit d with
  | Some x, Some y, Some z, Some w => Some (((x * 16 + y) * 16 + z) * 16 + w)
  | _, _, _, _ => None
  end.

Definition escape (c : char) : option char :=
  if c =? DQUOTE then Some DQUOTE
  else if c =? BACKSLASH then Some BACKSLASH
  else if c =? code "/" then Some (code "/")
  else if c =? code "b" then Some 8
  else if c =? code "f" then Some 12
  else if c =? code "n" then Some 10
  else if c =? code "r" then Some 13
  else if c =? code "t" then Some 9
  else None.

Definition consumed {A : Type} (c : A) (r : option (list A * jsstring))
    : option (list A * jsstring) :=
  match r with
  | Some (l, s) => Some (c :: l, s)
  | None => None
  end.

(** The characters of a string literal after its opening quote, up to
    and including the closing quote. *)
Fixpoint parse_chars (s : jsstring) : option (jsstring * jsstring) :=
  match s with
  | [] => None
  | c :: s1 =>
      if c =? DQUOTE then Some ([], s1)
      else if c =? BACKSLASH then
        match s1 with
        | [] => None
        | e :: s2 =>
            if e =? code "u" then
              match s2 with
              | h1 :: h2 :: h3 :: h4 :: s3 =>
                  match hex4 h1 h2 h3 h4 with
                  | Some u => consumed u (parse_chars s3)
                  | None => None
                  end
              | _ => None
              end
            else
              match escape e with
              | Some u => consumed u (parse_chars s2)
              | None => None
              end
        end
      else if c <? 32 then None
      else consumed c (parse_chars s1)
  end.

Fixpoint skip_digits (s : jsstring) : jsstring :=
  match s with
  | c :: s' => if isDigit c then skip_digits s' else s
  | [] => []
  end.

(** One or more digits. *)
Definition digits1 (s : jsstring) : option jsstring :=
  match s with
  | c :: s' => if isDigit c then Some (skip_digits s') else None
  | [] => None
  end.

(** What is left of [s] after a number, if [s] starts with one. *)
Definition skip_number (s : jsstring) : option jsstring :=
  let s1 := match s with
            | c :: s' => if c =? code "-" then s' else s
            | [] => s
            end in
  let int := match s1 with
             | c :: s' => if c =? code "0" then Some s' else digits1 s1
             | [] => None
             end in
  match int with
  | None => None
  | Some s2 =>
      let frac := match s2 with
                  | c :: s' => if c =? code "." then digits1 s' else Some s2
                  | [] => Some s2
                  end in
      match frac with
      | None => None
      | Some s3 =>
          match s3 with
          | c :: s' =>
              if (c =? code "e") || (c =? code "E") then
                match s' with
                | d :: s'' =>
                    if (d =? code "+") || (d =? code "-") then digits1 s''
                    else digits1 s'
                | [] => None
                end
              else Some s3
          | [] => Some s3
          end
      end
  end.

Definition parse_scalar (s : jsstring) : option (json * jsstring) :=
  match match_chars (js "null") s with
  | Some r => Some (JNull, r)
  | None =>
  match match_chars (js "true") s with
  | Some r => Some (JBool true, r)
  | None =>
  match match_chars (js "false") s with
  | Some r => Some (JBool false, r)
  | None =>
  match skip_number s with
  | Some r => Some (JNumber (take (length s - length r) s), r)
  | None => None
  end end end end.

(** Values nest, so the three parsers recurse on a bound: every second
    call along a chain of calls has consumed a character, and [JSON_parse]
    starts with twice the length of the text and two more. *)
Fixpoint parse_value (fuel : nat) (s : jsstring) : option (json * jsstring) :=
  match fuel with
  | O => None
  | S fuel' =>
      match skip_ws s with
      | [] => None
      | c :: s1 =>
          if c =? code "{" then
            match skip_ws s1 with
            | [] => None
            | c' :: s2 =>
                if c' =? code "}" then Some (JObject [], s2)
                else
                  match parse_members fuel' s1 with
                  | Some (ms, r) => Some (JObject ms, r)
                  | None => None
                  end
            end
          else if c =? code "[" then
            match skip_ws s1 with
            | [] => None
            | c' :: s2 =>
                if c' =? code "]" then Some (JArray [], s2)
                else
                  match parse_elements fuel' s1 with
                  | Some (vs, r) => Some (JArray vs, r)
                  | None => None
                  end
            end
          else if c =? DQUOTE then
            match parse_chars s1 with
            | Some (str, r) => Some (JString str, r)
            | None => None
            end
          else parse_scalar (c :: s1)
      end
  end
with parse_elements (fuel : nat) (s : jsstring)
    : option (list json * jsstring) :=
  match fuel with
  | O => None
  | S fuel' =>
      match parse_value fuel' s with
      | None => None
      | Some (v, r) =>
          match skip_ws r with
          | [] => None
          | c :: r1 =>
              if c =? code "," then consumed v (parse_elements fuel' r1)
              else if c =? code "]" then Some ([v], r1)
              else None
          end
      end
  end
with parse_members (fuel : nat) (s : jsstring)
    : option (list (jsstring * json) * jsstring) :=
  match fuel with
  | O => None
  | S fuel' =>
      match skip_ws s with
      | [] => None
      | q :: s1 =>
          if q =? DQUOTE then
            match parse_chars s1 with
            | None => None
            | Some (key, r) =>
                match skip_ws r with
                | [] => None
                | c :: r1 =>
                    if c =? code ":" then
                      match parse_value fuel' r1 with
                      | None => None
                      | Some (v, r2) =>
                          match skip_ws r2 with
                          | [] => None
                          | c' :: r3 =>
                              if c' =? code "," then
                                consumed (key, v) (parse_members fuel' r3)
                              else if c' =? code "}" then Some ([(key, v)], r3)
                              else None
                          end
                      end
                    else None
                end
            end
          else None
      end
  end.

(** [JSON.parse(text)]; [None] is the [SyntaxError] it throws. *)
Definition JSON_parse (text : jsstring) : option json :=
  match parse_value (2 * length text + 2) text with
  | Some (v, r) =>
      match skip_ws r with
      | [] => Some v
      | _ :: _ => None
      end
  | None => None
  end.

(** [data[key]] on a parsed object; [None] is [undefined]. *)
Fixpoint get (members : list (jsstring * json)) (key : jsstring) : option json :=
  match members with
  | [] => None
  | (k, v) :: ms =>
      match get ms key with
      | Some v' => Some v'
      | None => if bool_decide (k = key) then Some v else None
      end
  end.

(** ** Structured variant (the second [App] component) *)

Module Structured.

(** One field of the zod object: [z.string().describe(...)]. *)
Record Field : Type := mkField {
  name : jsstring;
  description : jsstring
}.

Definition correctionSchema : list Field :=
  [ mkField (js "correctedText")
      (js "The grammatically correct version of the text with all original formatting preserved (line breaks, lists, etc.). Only fix grammar and spelling errors - DO NOT change the meaning, tone, or intent of the original text.");
    mkField (js "wordUsage")
      (js "Identify words used incorrectly and explain the correct word type/usage");
    mkField (js "explanation")
      (js "Explain how to make the text correct") ].

Record Config : Type := mkConfig {
  responseMimeType : jsstring;
  responseSchema : list Field
}.

Record Request : Type := mkRequest {
  model : jsstring;
  contents : jsstring;
  config : Config
}.

Definition EMPTY_INPUT_ERROR : jsstring := js "Please enter text to correct.".

Definition prompt (inputText : jsstring) : jsstring :=
  unlines
    [ js "You are an English grammar correction assistant. Analyze the following text:";
      [];
      DQUOTE :: inputText ++ [DQUOTE];
      [];
      js "CRITICAL INSTRUCTIONS:";
      js "- ONLY correct grammar and spelling errors";
      js "- DO NOT change the meaning of the original sentence";
      js "- DO NOT rephrase or rewrite the content";
      js "- Preserve the original intent, tone, and message exactly as written";
      js "- Preserve the original formatting exactly, including line breaks, paragraph breaks, bullet points, numbered lists, and any other formatting structures";
      [];
      js "Provide:";
      js "1. The grammatically correct version of the text with all errors fixed but meaning unchanged";
      js "2. Identify words used incorrectly and explain the correct word type/usage";
      js "3. Explain how to make the text correct" ].

(** [z.string()] on a property value: any string passes, the empty one
    too; [undefined] and every other type fail. *)
Definition z_string (v : option json) : Try jsstring :=
  match v with
  | Some (JString s) => ok s
  | _ => throw ZodError
  end.

(** [correctionSchema.parse(data)]: [data] must be an object that is
    neither [null] nor an array; the output holds the three fields of
    the shape and nothing else. *)
Definition correctionSchema_parse (data : json) : Try CorrectionResult :=
  match data with
  | JObject members =>
      try! c := z_string (get members (js "correctedText")) in
      try! w := z_string (get members (js "wordUsage")) in
      try! e := z_string (get members (js "explanation")) in
      ok (mkResult c w e)
  | _ => throw ZodError
  end.

(** [correctionSchema.parse(JSON.parse(text))] *)
Definition parseResponse (text : jsstring) : Try CorrectionResult :=
  match JSON_parse text with
  | Some data => correctionSchema_parse data
  | None => throw SyntaxError
  end.

(** The argument of [generateContent]. *)
Definition request (inputText : jsstring) : Request :=
  mkRequest (js "gemini-2.5-flash-lite") (prompt inputText)
    (mkConfig (js "application/json") correctionSchema).

Definition handleCorrect_begin (s : State) : Submit Request :=
  if negb (truthy (trim (inputText s))) then
    Rejected (setError EMPTY_INPUT_ERROR s)
  else if negb (truthy (apiKey s)) then
    Rejected (setError NO_KEY_ERROR (setShowSettings true s))
  else
    Pending (setResult None (setError [] (setLoading true s)))
      (apiKey s) (request (inputText s)).

(** The [try] block from the settled call on. *)
Definition tryBody (o : ApiOutcome) : Try CorrectionResult :=
  try! text := responseText o in parseResponse text.

Definition handleCorrect_resume (o : ApiOutcome) (s : State)
    : State * list Exn :=
  settle (tryBody o) s.

Definition handleCorrect (api : jsstring -> Request -> ApiOutcome)
    (s : State) : Run Request :=
  run handleCorrect_begin handleCorrect_resume api s.

End Structured.

(** ** Sections of a labeled response, said directly

    What the three patterns compute, without the matcher: the text after
    the first occurrence of a marker, and the part of a text before the
    first occurrence of a marker. *)

Definition startsWith (p s : jsstring) : bool :=
  match match_chars p s with Some _ => true | None => false end.

(** [String.prototype.includes]. *)
Fixpoint includes (p s : jsstring) : bool :=
  startsWith p s ||
  match s with
  | [] => false
  | _ :: s' => includes p s'
  end.

(** The text after the first occurrence of [p] in [s]. *)
Fixpoint after (p s : jsstring) : option jsstring :=
  match match_chars p s with
  | Some r => Some r
  | None =>
      match s with
      | [] => None
      | _ :: s' => after p s'
      end
  end.

(** The part of [s] before the first occurrence of [p], all of [s] when
    there is none. *)
Fixpoint before (p s : jsstring) : jsstring :=
  if startsWith p s then []
  else
    match s with
    | [] => []
    | c :: s' => c :: before p s'
    end.

(** The part of [s] before the first occurrence of any of the markers. *)
Fixpoint before_any (ps : list jsstring) (s : jsstring) : jsstring :=
  if existsb (fun p => startsWith p s) ps then []
  else
    match s with
    | [] => []
    | c :: s' => c :: before_any ps s'
    end.

(** The section of a marker as the specification words it: the content
    that follows the marker, up to the next marker of the set or the end
    of the text, without the white space around it.  A text without the
    marker has no such section. *)
Definition sectionContent (marker : jsstring) (text : jsstring) : option jsstring :=
  match after marker text with
  | Some r =>
      Some (trim (before_any
                    [Labeled.CORRECTED_TEXT; Labeled.WORD_USAGE; Labeled.EXPLANATION] r))
  | None => None
  end.

(** ** Failed calls

    The ways a correction call fails: the transport fails, the response
    carries no text, or the parser throws on the text. *)

Inductive CallFails (parse : jsstring -> Try CorrectionResult)
    : ApiOutcome -> Exn -> Prop :=
| fails_transport : CallFails parse ApiRejects ApiError
| fails_undefined : CallFails parse (ApiResolves None) NoResponse
| fails_empty : CallFails parse (ApiResolves (Some [])) NoResponse
| fails_parse (text : jsstring) (e : Exn) :
    text <> [] -> parse text = throw e ->
    CallFails parse (ApiResolves (Some text)) e.

(** The state rendered while the request is in flight. *)
Definition pendingState (s : State) : State :=
  setResult None (setError [] (setLoading true s)).

(** ** Sample inputs *)

Definition threeSections : jsstring :=
  js "CORRECTED_TEXT:" ++ LF :: js "A" ++ LF :: LF ::
  js "WORD_USAGE:" ++ LF :: js "B" ++ LF :: LF ::
  js "EXPLANATION:" ++ LF :: js "C".

Definition noWordUsage : jsstring :=
  js "CORRECTED_TEXT:" ++ LF :: js "A" ++ LF :: LF ::
  js "EXPLANATION:" ++ LF :: js "C".

Definition quoted (s : string) : jsstring := DQUOTE :: js s ++ [DQUOTE].

(** A JSON object with the three fields set to the given literals. *)
Definition threeFields (c w e : string) : jsstring :=
  js "{" ++ quoted "correctedText" ++ js ":" ++ quoted c ++ js "," ++
  quoted "wordUsage" ++ js ":" ++ quoted w ++ js "," ++
  quoted "explanation" ++ js ":" ++ quoted e ++ js "}".

Definition emptyFields : jsstring :=
  threeFields EmptyString EmptyString EmptyString.
Definition emptyCorrection : jsstring := threeFields EmptyString "B" "C".

(** A JSON object whose [wordUsage] is a number. *)
Definition numericWordUsage : jsstring :=
  js "{" ++ quoted "correctedText" ++ js ":" ++ quoted "A" ++ js "," ++
  quoted "wordUsage" ++ js ":7," ++
  quoted "explanation" ++ js ":" ++ quoted "C" ++ js "}".

(** A state ready to submit: some text typed, a credential stored, and a
    result left over from an earlier run. *)
Definition readyState : State :=
  mkState (js "key") false [] (js "He go home.")
    (Some (mkResult (js "old") (js "old") (js "old"))) false [] false.

Definition resolvesWith (text : jsstring) {Req : Type}
    : jsstring -> Req -> ApiOutcome :=
  fun _ _ => ApiResolves (Some text).
Definition rejects {Req : Type} : jsstring -> Req -> ApiOutcome :=
  fun _ _ => ApiRejects.

(** ** The other handlers and what is rendered

    The rest of the component, the same in both variants: the paste and
    copy handlers, the inline handlers of the markup, and the parts of
    the markup that depend on the state. *)

(** How [navigator.clipboard.readText()] settles. *)
Inductive ClipboardRead : Type :=
| ReadRejects
| ReadResolves (text : jsstring).

Definition PASTE_ERROR : jsstring :=
  js "Failed to read clipboard. Please paste manually.".

(** [handlePaste], from the settled read on (nothing happens before). *)
Definition handlePaste (o : ClipboardRead) (s : State) : State :=
  match o with
  | ReadResolves text => setInputText text s
  | ReadRejects => setError PASTE_ERROR s
  end.

(** [handleCopy]: the state is not touched; a failed write is logged.
    The second component tells whether [console.error] was called. *)
Definition handleCopy (written : bool) (s : State) : State * bool :=
  (s, negb written).

(** [onClick] of the settings button. *)
Definition clickSettings (s : State) : State := setShowSettings true s.

(** [onClick] of the modal overlay: [!apiKey && setShowSettings(false)]. *)
Definition clickOverlay (s : State) : State :=
  if negb (truthy (apiKey s)) then setShowSettings false s else s.

(** [onClick] of the Cancel button. *)
Definition clickCancel (s : State) : State := setShowSettings false s.

(** What the markup shows of a state. *)
Record View : Type := mkView {
  modal : bool;                  (* [showSettings && ...] *)
  cancelButton : bool;           (* inside the modal, [apiKey && ...] *)
  submitDisabled : bool;         (* [disabled={loading}] *)
  submitLabel : jsstring;
  errorBanner : option jsstring; (* [error && ...] *)
  viewToggle : bool;             (* inside [result && ...] *)
  panels : list (jsstring * jsstring)  (* heading and content *)
}.

Definition render (s : State) : View :=
  mkView
    (showSettings s)
    (showSettings s && truthy (apiKey s))
    (loading s)
    (if loading s then js "Correcting..." else js "Correct Grammar")
    (if truthy (error s) then Some (error s) else None)
    (match result s with Some _ => true | None => false end)
    (match result s with
     | Some r =>
         (js "Corrected Grammar", correctedText r) ::
         (if negb (simpleView s) then
            [(js "Word Usage", wordUsage r); (js "Explanation", explanation r)]
          else [])
     | None => []
     end).

(** ** The component as a transition system

    A user event takes effect only when its control is rendered and
    enabled.  A click on the submit button runs [handleCorrect] up to its
    [await]; the settlement of the call is an event of its own, and other
    events may come in between. *)

Inductive Event : Type :=
| ClickSettings
| ClickOverlay
| ClickCancel
| ChangeApiKey (value : jsstring)
| ClickSave
| ChangeInput (value : jsstring)
| PasteSettles (o : ClipboardRead)
| ClickCorrect
| CorrectSettles (o : ApiOutcome)
| ChangeSimpleView (checked : bool)
| CopySettles (written : bool).

(** The component with its surroundings: the storage, the number of
    calls awaiting settlement, and the requests sent so far, latest
    first. *)
Record App (Req : Type) : Type := mkApp {
  state : State;
  storage : Storage;
  inflight : nat;
  sent : list (jsstring * Req)
}.
Arguments mkApp {Req}.
Arguments state {Req}.
Arguments storage {Req}.
Arguments inflight {Req}.
Arguments sent {Req}.

Definition enabled {Req : Type} (e : Event) (a : App Req) : bool :=
  let v := render (state a) in
  match e with
  | ClickSettings => true
  | ClickOverlay => modal v
  | ClickCancel => cancelButton v
  | ChangeApiKey _ => modal v
  | ClickSave => modal v
  | ChangeInput _ => true
  | PasteSettles _ => true
  | ClickCorrect => negb (submitDisabled v)
  | CorrectSettles _ => (0 <? inflight a)%nat
  | ChangeSimpleView _ => viewToggle v
  | CopySettles _ => viewToggle v
  end.

Definition fire {Req : Type} (begin : State -> Submit Req)
    (resume : ApiOutcome -> State -> State * list Exn)
    (e : Event) (a : App Req) : App Req :=
  let s := state a in
  let update s' := mkApp s' (storage a) (inflight a) (sent a) in
  match e with
  | ClickSettings => update (clickSettings s)
  | ClickOverlay => update (clickOverlay s)
  | ClickCancel => update (clickCancel s)
  | ChangeApiKey v => update (setTempApiKey v s)
  | ClickSave =>
      let (s', st') := handleSaveApiKey s (storage a) in
      mkApp s' st' (inflight a) (sent a)
  | ChangeInput v => update (setInputText v s)
  | PasteSettles o => update (handlePaste o s)
  | ClickCorrect =>
      match begin s with
      | Rejected s' => update s'
      | Pending s' key req =>
          mkApp s' (storage a) (S (inflight a)) ((key, req) :: sent a)
      end
  | CorrectSettles o =>
      mkApp (resume o s).1 (storage a) (pred (inflight a)) (sent a)
  | ChangeSimpleView b => update (setSimpleView b s)
  | CopySettles written => update (handleCopy written s).1
  end.

Definition step {Req : Type} (begin : State -> Submit Req)
    (resume : ApiOutcome -> State -> State * list Exn)
    (a : App Req) (e : Event) : App Req :=
  if enabled e a then fire begin resume e a else a.

(** The component after its mount effect. *)
Definition mount {Req : Type} (st : Storage) : App Req :=
  mkApp (onMount st initialState) st 0 [].

Definition runEvents {Req : Type} (begin : State -> Submit Req)
    (resume : ApiOutcome -> State -> State * list Exn)
    (es : list Event) (a : App Req) : App Req :=
  foldl (step begin resume) a es.

(** What holds of the component after every sequence of events (the
    parameters are the storage found at mount and what is asked of a
    request): one call at most awaits settlement, and one does exactly
    when loading is on; no result is held while loading; the credential
    in memory is the stored one, the empty string when nothing is stored;
    the stored credential is the one found at mount or a trimmed,
    non-empty string; every request sent carried a non-empty credential
    and satisfies [okRequest]. *)
Definition Invariant {Req : Type} (st0 : Storage) (okRequest : Req -> Prop)
    (a : App Req) : Prop :=
  inflight a = (if loading (state a) then 1 else 0)%nat /\
  (loading (state a) = true -> result (state a) = None) /\
  apiKey (state a) = default [] (getItem API_KEY_ITEM (storage a)) /\
  (getItem API_KEY_ITEM (storage a) = getItem API_KEY_ITEM st0 \/
   exists v, getItem API_KEY_ITEM (storage a) = Some v /\
             v <> [] /\ trimmed v) /\
  Forall (fun kr => kr.1 <> [] /\ okRequest kr.2) (sent a).

(** [field] is [section] without the white space around it: [section]
    is white space, then [field], then white space, and [field] itself
    neither starts nor ends with white space.  This is what
    [m[1].trim()] keeps of a capture: the interior, blank lines inside
    included. *)
Definition strippedFrom (field section : jsstring) : Prop :=
  trimmed field /\
  exists ws1 ws2,
    forallb isWhiteSpace ws1 = true /\ forallb isWhiteSpace ws2 = true /\
    section = ws1 ++ field ++ ws2.

(** A corrected section with blank lines around it and one inside. *)
Definition paddedSections : jsstring :=
  js "CORRECTED_TEXT:" ++ LF :: LF :: js "  A" ++ LF :: LF :: js "B  " ++
  LF :: LF :: js "WORD_USAGE:x".

(** The state after a submit click and a paste that failed while the
    call was pending, and the events that lead there from the mount. *)
Definition pasteFailedWhilePending : State :=
  handlePaste ReadRejects (pendingState readyState).

Definition storedKey : Storage := setItem API_KEY_ITEM (js "key") ∅.

Definition clickThenFailedPaste : list Event :=
  [ChangeInput (js "He go home."); ClickCorrect; PasteSettles ReadRejects].

(** ** Well-formed responses *)

(** A labeled response: the three markers in order, each followed by its
    content. *)
Definition labeledText (a b c : jsstring) : jsstring :=
  Labeled.CORRECTED_TEXT ++ a ++ Labeled.WORD_USAGE ++ b ++
  Labeled.EXPLANATION ++ c.

(** A character that stands for itself inside a JSON string literal. *)
Definition plainChar (c : char) : bool :=
  negb (c =? DQUOTE) && negb (c =? BACKSLASH) && negb (c <? 32).

Definition literal (s : jsstring) : jsstring := DQUOTE :: s ++ [DQUOTE].

(** The JSON text of an object with the three fields, for contents made
    of plain characters. *)
Definition objectText (c w e : jsstring) : jsstring :=
  js "{" ++ literal (js "correctedText") ++ js ":" ++ literal c ++ js "," ++
  literal (js "wordUsage") ++ js ":" ++ literal w ++ js "," ++
  literal (js "explanation") ++ js ":" ++ literal e ++ js "}".

(** The three property names the schema reads. *)
Definition schemaKeys : list jsstring :=
  Structured.name <$> Structured.correctionSchema.

(** * Properties *)

(** ** Trimming *)

Lemma trimStart_suffix (s : jsstring) : exists ws, s = ws ++ trimStart s.
Proof.
  induction s as [|c s [ws IH]]; simpl.
  - exists []. reflexivity.
  - destruct (isWhiteSpace c).
    + exists (c :: ws). simpl. congruence.
    + exists []. reflexivity.
Qed.

Lemma trimStart_head (s : jsstring) (c : char) :
  head (trimStart s) = Some c -> isWhiteSpace c = false.
Proof.
  induction s as [|x s IH]; simpl; [discriminate|].
  destruct (isWhiteSpace x) eqn:Hx; [exact IH|].
  simpl. intros [= <-]. exact Hx.
Qed.

Lemma trimStart_fixed (s : jsstring) :
  (forall c, head s = Some c -> isWhiteSpace c = false) -> trimStart s = s.
Proof.
  destruct s as [|x s]; simpl; [reflexivity|].
  intros H. rewrite (H x eq_refl). reflexivity.
Qed.

Lemma trimStart_idem (s : jsstring) : trimStart (trimStart s) = trimStart s.
Proof. apply trimStart_fixed, trimStart_head. Qed.

Lemma trimStart_last (s : jsstring) (c : char) :
  last (trimStart s) = Some c -> last s = Some c.
Proof.
  destruct (trimStart_suffix s) as [ws E]. intros H.
  rewrite E, last_app, H. reflexivity.
Qed.

Lemma trimEnd_prefix (s : jsstring) : exists ws, s = trimEnd s ++ ws.
Proof.
  unfold trimEnd. destruct (trimStart_suffix (reverse s)) as [ws E].
  exists (reverse ws).
  rewrite <- reverse_app, <- E. symmetry. apply reverse_involutive.
Qed.

Lemma trimEnd_last (s : jsstring) (c : char) :
  last (trimEnd s) = Some c -> isWhiteSpace c = false.
Proof. unfold trimEnd. rewrite last_reverse. apply trimStart_head. Qed.

Lemma trimEnd_head (s : jsstring) (c : char) :
  head (trimEnd s) = Some c -> head s = Some c.
Proof.
  destruct (trimEnd_prefix s) as [ws E]. intros H.
  rewrite E, head_app, H. reflexivity.
Qed.

Lemma trimEnd_fixed (s : jsstring) :
  (forall c, last s = Some c -> isWhiteSpace c = false) -> trimEnd s = s.
Proof.
  intros H. unfold trimEnd. rewrite trimStart_fixed.
  - apply reverse_involutive.
  - intros c. rewrite head_reverse. apply H.
Qed.

Lemma trim_trimmed (s : jsstring) : trimmed (trim s).
Proof.
  split; intros c H.
  - apply (trimStart_head s), trimEnd_head, H.
  - apply (trimEnd_last _ _ H).
Qed.

Lemma trim_fixed (s : jsstring) : trimmed s -> trim s = s.
Proof.
  intros [Hh Hl]. unfold trim.
  rewrite (trimStart_fixed s Hh). apply trimEnd_fixed, Hl.
Qed.

Lemma trim_idem (s : jsstring) : trim (trim s) = trim s.
Proof. apply trim_fixed, trim_trimmed. Qed.

Lemma trim_trimStart (s : jsstring) : trim (trimStart s) = trim s.
Proof. unfold trim. rewrite trimStart_idem. reflexivity. Qed.

Lemma truthy_true (s : jsstring) : truthy s = true <-> s <> [].
Proof. destruct s; simpl; split; congruence. Qed.

Lemma truthy_false (s : jsstring) : truthy s = false <-> s = [].
Proof. destruct s; simpl; split; congruence. Qed.

(** ** The matcher on the three patterns *)

Lemma match_chars_Some (p s r : jsstring) :
  match_chars p s = Some r <-> s = p ++ r.
Proof.
  revert s. induction p as [|c p IH]; intros s; simpl.
  - split; congruence.
  - destruct s as [|x s]; [split; discriminate|].
    destruct (N.eqb_spec c x) as [->|Hne].
    + rewrite IH. split; congruence.
    + split; [discriminate|]. intros [= E _]. congruence.
Qed.

Lemma match_chars_suffix (p s r : jsstring) :
  match_chars p s = Some r -> exists pre, s = pre ++ r.
Proof. intros H. exists p. apply match_chars_Some, H. Qed.

Lemma cls_sS_any (c : char) : cls_sS c = true.
Proof. unfold cls_sS. destruct (isWhiteSpace c); reflexivity. Qed.

(** [\s*] stops after the leading white space when what follows it in
    the pattern matches there. *)
Lemma star_greedy_ws (k : Continuation) (s : jsstring) (g : option jsstring)
    (y : MatchState) :
  k (mkMatch (trimStart s) g) = Some y -> star_greedy cls_s k s g = Some y.
Proof.
  induction s as [|x s IH]; simpl; intros H; [exact H|].
  unfold cls_s at 1. destruct (isWhiteSpace x); [|exact H].
  rewrite (IH H). reflexivity.
Qed.

(** The greedy [[\s\S]*] runs to the end of the text. *)
Lemma star_greedy_all (k : Continuation) (s : jsstring) (g : option jsstring)
    (y : MatchState) :
  k (mkMatch [] g) = Some y -> star_greedy cls_sS k s g = Some y.
Proof.
  induction s as [|x s IH]; simpl; intros H; [exact H|].
  rewrite cls_sS_any, (IH H). reflexivity.
Qed.

(** [(?=p|$)] holds where [p] starts or the text ends. *)
Lemma lookahead_marker (p : jsstring) (y : MatchState) :
  matcher (Lookahead (Alt (Chars p) Dollar)) y Some =
  if startsWith p (rest y) || negb (truthy (rest y)) then Some y else None.
Proof.
  destruct y as [s g]. unfold startsWith. cbn [matcher rest group1].
  destruct (match_chars p s); [reflexivity|].
  destruct s; reflexivity.
Qed.

Lemma take_consumed (pre s : jsstring) :
  take (length (pre ++ s) - length s) (pre ++ s) = pre.
Proof.
  rewrite length_app, Nat.add_sub. apply take_app_length.
Qed.

(** The lazy group followed by the lookahead captures the text before the
    next occurrence of [p]. *)
Lemma star_lazy_before (p s0 : jsstring) (s pre : jsstring)
    (g : option jsstring) :
  s0 = pre ++ s ->
  exists r,
    star_lazy cls_sS
      (fun y => matcher (Lookahead (Alt (Chars p) Dollar))
                  (mkMatch (rest y)
                     (Some (take (length s0 - length (rest y)) s0)))
                  Some)
      s g
    = Some (mkMatch r (Some (pre ++ before p s))).
Proof.
  revert pre. induction s as [|x s IH]; intros pre ->.
  - cbn [star_lazy before]. rewrite lookahead_marker. cbn [rest].
    rewrite orb_true_r, take_consumed.
    destruct (startsWith p []); rewrite app_nil_r; eauto.
  - cbn [star_lazy before]. rewrite lookahead_marker. cbn [rest].
    rewrite take_consumed. cbn [truthy negb]. rewrite orb_false_r.
    destruct (startsWith p (x :: s)) eqn:Hp.
    + rewrite app_nil_r. eauto.
    + rewrite cls_sS_any.
      destruct (IH (pre ++ [x])) as [r Hr].
      { rewrite <- app_assoc. reflexivity. }
      exists r. rewrite Hr, <- app_assoc. reflexivity.
Qed.

(** One attempt, at one start index, of a pattern that cuts a section
    at the next marker. *)
Lemma matcher_section_hit (marker p s r : jsstring) :
  match_chars marker s = Some r ->
  exists r',
    matcher
      (Seq (Chars marker)
         (Seq (Star true cls_s)
            (Seq (Group (Star false cls_sS))
               (Lookahead (Alt (Chars p) Dollar)))))
      (mkMatch s None) Some
    = Some (mkMatch r' (Some (before p (trimStart r)))).
Proof.
  intros H. cbn [matcher rest group1]. rewrite H.
  destruct (star_lazy_before p (trimStart r) (trimStart r) [] None eq_refl)
    as [r' Hr'].
  exists r'. apply star_greedy_ws. exact Hr'.
Qed.

Lemma matcher_chars_miss (marker s : jsstring) (r : regex) (k : Continuation)
    (g : option jsstring) :
  match_chars marker s = None ->
  matcher (Seq (Chars marker) r) (mkMatch s g) k = None.
Proof. intros H. cbn [matcher rest]. rewrite H. reflexivity. Qed.

Lemma matcher_rest_hit (marker s r : jsstring) :
  match_chars marker s = Some r ->
  matcher
    (Seq (Chars marker) (Seq (Star true cls_s) (Group (Star true cls_sS))))
    (mkMatch s None) Some
  = Some (mkMatch [] (Some (trimStart r))).
Proof.
  intros H. cbn [matcher rest group1]. rewrite H.
  apply star_greedy_ws, star_greedy_all. cbn [rest].
  rewrite Nat.sub_0_r, firstn_all. reflexivity.
Qed.

(** [text.match] with a section pattern: the capture starts after the
    first occurrence of the marker and its white space, and ends before
    the next occurrence of [p]. *)
Lemma str_match_section (marker p text : jsstring) :
  str_match
    (Seq (Chars marker)
       (Seq (Star true cls_s)
          (Seq (Group (Star false cls_sS))
             (Lookahead (Alt (Chars p) Dollar)))))
    text
  = match after marker text with
    | Some r => Some (Some (before p (trimStart r)))
    | None => None
    end.
Proof.
  induction text as [|c text IH].
  - cbn [str_match after]. destruct (match_chars marker []) as [r|] eqn:H.
    + destruct (matcher_section_hit marker p [] r H) as [r' ->]. reflexivity.
    + rewrite (matcher_chars_miss _ _ _ _ _ H). reflexivity.
  - cbn [str_match after].
    destruct (match_chars marker (c :: text)) as [r|] eqn:H.
    + destruct (matcher_section_hit marker p _ r H) as [r' ->]. reflexivity.
    + rewrite (matcher_chars_miss _ _ _ _ _ H). exact IH.
Qed.

Lemma str_match_rest (marker text : jsstring) :
  str_match
    (Seq (Chars marker) (Seq (Star true cls_s) (Group (Star true cls_sS))))
    text
  = match after marker text with
    | Some r => Some (Some (trimStart r))
    | None => None
    end.
Proof.
  induction text as [|c text IH].
  - cbn [str_match after]. destruct (match_chars marker []) as [r|] eqn:H.
    + rewrite (matcher_rest_hit _ _ _ H). reflexivity.
    + rewrite (matcher_chars_miss _ _ _ _ _ H). reflexivity.
  - cbn [str_match after].
    destruct (match_chars marker (c :: text)) as [r|] eqn:H.
    + rewrite (matcher_rest_hit _ _ _ H). reflexivity.
    + rewrite (matcher_chars_miss _ _ _ _ _ H). exact IH.
Qed.

(** ** Occurrences of a marker *)

Lemma after_suffix (p s r : jsstring) :
  after p s = Some r -> exists pre, s = pre ++ r.
Proof.
  induction s as [|c s IH]; cbn [after].
  - destruct (match_chars p []) eqn:H; [|discriminate].
    intros [= <-]. eauto using match_chars_suffix.
  - destruct (match_chars p (c :: s)) eqn:H.
    + intros [= <-]. eauto using match_chars_suffix.
    + intros H'. destruct (IH H') as [pre ->]. exists (c :: pre). reflexivity.
Qed.

Lemma after_includes (p s : jsstring) :
  after p s = None <-> includes p s = false.
Proof.
  unfold startsWith.
  induction s as [|c s IH]; cbn [after includes]; unfold startsWith.
  - destruct (match_chars p []); simpl; split; congruence.
  - destruct (match_chars p (c :: s)); simpl; [split; congruence|exact IH].
Qed.

Lemma includes_suffix (p pre s : jsstring) :
  includes p (pre ++ s) = false -> includes p s = false.
Proof.
  induction pre as [|c pre IH]; [trivial|].
  cbn [app includes]. intros H. apply orb_false_elim in H as [_ H]. auto.
Qed.

Lemma before_absent (p s : jsstring) : includes p s = false -> before p s = s.
Proof.
  induction s as [|c s IH]; cbn [includes before]; intros H;
    apply orb_false_elim in H as [-> H]; [reflexivity|].
  rewrite (IH H). reflexivity.
Qed.

Lemma trim_ws_cons (c : char) (s : jsstring) :
  isWhiteSpace c = true -> trim (c :: s) = trim s.
Proof. intros H. unfold trim. simpl. rewrite H. reflexivity. Qed.

(** A marker starts with a character that is no white space, so the
    white space that [\s*] skips holds no occurrence of it. *)
Lemma before_trimStart (c : char) (p s : jsstring) :
  isWhiteSpace c = false ->
  trim (before (c :: p) (trimStart s)) = trim (before (c :: p) s).
Proof.
  intros Hc. induction s as [|x s IH]; [reflexivity|].
  cbn [trimStart]. destruct (isWhiteSpace x) eqn:Hx; [|reflexivity].
  rewrite IH. cbn [before]. unfold startsWith. cbn [match_chars].
  destruct (N.eqb_spec c x) as [->|_]; [congruence|].
  symmetry. apply trim_ws_cons, Hx.
Qed.

Lemma before_WORD_USAGE_trimStart (s : jsstring) :
  trim (before Labeled.WORD_USAGE (trimStart s))
  = trim (before Labeled.WORD_USAGE s).
Proof. exact (before_trimStart 87 (js "ORD_USAGE:") s eq_refl). Qed.

Lemma before_EXPLANATION_trimStart (s : jsstring) :
  trim (before Labeled.EXPLANATION (trimStart s))
  = trim (before Labeled.EXPLANATION s).
Proof. exact (before_trimStart 69 (js "XPLANATION:") s eq_refl). Qed.

(** ** The labeled parser, section by section *)

Lemma labeled_parseResponse_sections (text : jsstring) :
  Labeled.parseResponse text =
  ok (mkResult
        (from_option (fun r => trim (before Labeled.WORD_USAGE r))
           Labeled.NO_CORRECTION (after Labeled.CORRECTED_TEXT text))
        (from_option (fun r => trim (before Labeled.EXPLANATION r))
           Labeled.NO_WORD_USAGE (after Labeled.WORD_USAGE text))
        (from_option trim
           Labeled.NO_EXPLANATION (after Labeled.EXPLANATION text))).
Proof.
  unfold Labeled.parseResponse, Labeled.reCorrected, Labeled.reWordUsage,
    Labeled.reExplanation.
  rewrite !str_match_section, str_match_rest.
  destruct (after Labeled.CORRECTED_TEXT text) as [c|];
    destruct (after Labeled.WORD_USAGE text) as [w|];
    destruct (after Labeled.EXPLANATION text) as [e|];
    cbn [Labeled.section bind ok from_option];
    rewrite ?trim_trimStart;
    rewrite ?before_WORD_USAGE_trimStart, ?before_EXPLANATION_trimStart;
    reflexivity.
Qed.

Lemma placeholders_trimmed :
  trimmed Labeled.NO_CORRECTION /\ trimmed Labeled.NO_WORD_USAGE /\
  trimmed Labeled.NO_EXPLANATION.
Proof.
  repeat split; intros c; vm_compute; intros [= <-]; reflexivity.
Qed.

Lemma from_option_trimmed (f : jsstring -> jsstring) (d : jsstring)
    (o : option jsstring) :
  (forall r, trimmed (f r)) -> trimmed d -> trimmed (from_option f d o).
Proof. intros Hf Hd. destruct o; simpl; auto. Qed.

(** ** The bound of the JSON parser *)

Lemma skip_ws_length s : (length (skip_ws s) <= length s)%nat.
Proof.
  induction s as [|c s IH]; simpl; [lia|].
  destruct (_ || _); simpl; lia.
Qed.

Lemma consumed_Some {A} (c : A) o l r :
  consumed c o = Some (l, r) -> exists l', o = Some (l', r) /\ l = c :: l'.
Proof. destruct o as [[l' r']|]; simpl; [|discriminate]. intros [= <- <-]. eauto. Qed.

Lemma parse_chars_length s str r :
  parse_chars s = Some (str, r) -> (length r < length s)%nat.
Proof.
  remember (length s) as n eqn:Hn. revert s str r Hn.
  induction n as [n IH] using lt_wf_ind. intros s str r -> H.
  destruct s as [|c s1]; [discriminate|]. cbn [parse_chars] in H.
  destruct (c =? DQUOTE).
  { injection H as <- <-. simpl. lia. }
  destruct (c =? BACKSLASH).
  - destruct s1 as [|e s2]; [discriminate|].
    destruct (e =? code "u").
    + destruct s2 as [|h1 [|h2 [|h3 [|h4 s3]]]]; try discriminate.
      destruct (hex4 h1 h2 h3 h4); [|discriminate].
      apply consumed_Some in H as (l' & H & _).
      pose proof (IH (length s3) ltac:(simpl; lia) s3 _ _ eq_refl H).
      simpl. lia.
    + destruct (escape e); [|discriminate].
      apply consumed_Some in H as (l' & H & _).
      pose proof (IH (length s2) ltac:(simpl; lia) s2 _ _ eq_refl H).
      simpl. lia.
  - destruct (c <? 32); [discriminate|].
    apply consumed_Some in H as (l' & H & _).
    pose proof (IH (length s1) ltac:(simpl; lia) s1 _ _ eq_refl H).
    simpl. lia.
Qed.

Lemma skip_digits_length s : (length (skip_digits s) <= length s)%nat.
Proof. induction s as [|c s IH]; simpl; [lia|]. destruct (isDigit c); simpl; lia. Qed.

Lemma digits1_length s r : digits1 s = Some r -> (length r < length s)%nat.
Proof.
  destruct s as [|c s]; simpl; [discriminate|].
  destruct (isDigit c); [|discriminate]. intros [= <-].
  pose proof (skip_digits_length s). lia.
Qed.

Lemma skip_number_length s r : skip_number s = Some r -> (length r < length s)%nat.
Proof.
  unfold skip_number.
  set (s1 := match s with [] => s | c :: s' => if c =? code "-" then s' else s end).
  assert (H1 : (length s1 <= length s)%nat).
  { subst s1. destruct s as [|c s']; [lia|]. destruct (c =? _); simpl; lia. }
  destruct (match s1 with [] => None | c :: s' => if c =? code "0" then Some s' else digits1 s1 end) as [s2|] eqn:Hint; [|discriminate].
  assert (H2 : (length s2 < length s1)%nat).
  { destruct s1 as [|c s']; [discriminate|]. destruct (c =? _).
    - injection Hint as <-. simpl. lia.
    - apply digits1_length in Hint. exact Hint. }
  destruct (match s2 with [] => Some s2 | c :: s' => if c =? code "." then digits1 s' else Some s2 end) as [s3|] eqn:Hfrac; [|discriminate].
  assert (H3 : (length s3 <= length s2)%nat).
  { destruct s2 as [|c s']; [injection Hfrac as <-; lia|]. destruct (c =? _).
    - apply digits1_length in Hfrac. simpl. lia.
    - injection Hfrac as <-. lia. }
  destruct s3 as [|c s']; [intros [= <-]; lia|].
  destruct (_ || _).
  - destruct s' as [|d s'']; [discriminate|].
    destruct (_ || _); intros H; apply digits1_length in H; simpl in *; lia.
  - intros [= <-]. lia.
Qed.

Lemma parse_scalar_length s v r :
  parse_scalar s = Some (v, r) -> (length r < length s)%nat.
Proof.
  unfold parse_scalar.
  destruct (match_chars (js "null") s) eqn:H1.
  { intros [= <- <-]. apply match_chars_Some in H1 as ->. rewrite length_app. simpl. lia. }
  destruct (match_chars (js "true") s) eqn:H2.
  { intros [= <- <-]. apply match_chars_Some in H2 as ->. rewrite length_app. simpl. lia. }
  destruct (match_chars (js "false") s) eqn:H3.
  { intros [= <- <-]. apply match_chars_Some in H3 as ->. rewrite length_app. simpl. lia. }
  destruct (skip_number s) eqn:H4; [|discriminate].
  intros [= <- <-]. apply skip_number_length, H4.
Qed.

Lemma skip_ws_cons_length s c s1 :
  skip_ws s = c :: s1 -> (length s1 < length s)%nat.
Proof. intros H. pose proof (skip_ws_length s) as L. rewrite H in L. simpl in L. lia. Qed.

(** A parse that succeeds consumes input, and succeeds with the same
    result on any bound of at least twice what it consumed. *)
Lemma fuel_enough (f : nat) :
  (forall s v r, parse_value f s = Some (v, r) ->
     (length r < length s)%nat /\
     forall f', (2 * (length s - length r) <= f')%nat ->
                parse_value f' s = Some (v, r)) /\
  (forall s vs r, parse_elements f s = Some (vs, r) ->
     (length r < length s)%nat /\
     forall f', (2 * (length s - length r) <= f' + 1)%nat ->
                parse_elements f' s = Some (vs, r)) /\
  (forall s ms r, parse_members f s = Some (ms, r) ->
     (length r < length s)%nat /\
     forall f', (2 * (length s - length r) <= f' + 1)%nat ->
                parse_members f' s = Some (ms, r)).
Proof.
  induction f as [|f (IHv & IHe & IHm)]; [repeat split; discriminate|].
  split; [|split].
  - intros s v r H. cbn [parse_value] in H.
    destruct (skip_ws s) as [|c s1] eqn:Hs; [discriminate|].
    pose proof (skip_ws_cons_length _ _ _ Hs) as L1.
    destruct (c =? code "{") eqn:Hc1.
    { destruct (skip_ws s1) as [|c' s2] eqn:Hs1; [discriminate|].
      pose proof (skip_ws_cons_length _ _ _ Hs1) as L2.
      destruct (c' =? code "}") eqn:Hc2.
      - injection H as <- <-. split; [lia|].
        intros [|f'] Hf; [lia|]. cbn [parse_value].
        rewrite Hs, Hc1, Hs1, Hc2. reflexivity.
      - destruct (parse_members f s1) as [[ms r']|] eqn:Hm; [|discriminate].
        injection H as <- <-. destruct (IHm _ _ _ Hm) as [L3 K].
        split; [lia|].
        intros [|f'] Hf; [lia|]. cbn [parse_value].
        rewrite Hs, Hc1, Hs1, Hc2, K by lia. reflexivity. }
    destruct (c =? code "[") eqn:Hc3.
    { destruct (skip_ws s1) as [|c' s2] eqn:Hs1; [discriminate|].
      pose proof (skip_ws_cons_length _ _ _ Hs1) as L2.
      destruct (c' =? code "]") eqn:Hc2.
      - injection H as <- <-. split; [lia|].
        intros [|f'] Hf; [lia|]. cbn [parse_value].
        rewrite Hs, Hc1, Hc3, Hs1, Hc2. reflexivity.
      - destruct (parse_elements f s1) as [[vs r']|] eqn:He; [|discriminate].
        injection H as <- <-. destruct (IHe _ _ _ He) as [L3 K].
        split; [lia|].
        intros [|f'] Hf; [lia|]. cbn [parse_value].
        rewrite Hs, Hc1, Hc3, Hs1, Hc2, K by lia. reflexivity. }
    destruct (c =? DQUOTE) eqn:Hc4.
    { destruct (parse_chars s1) as [[str r']|] eqn:Hp; [|discriminate].
      injection H as <- <-. pose proof (parse_chars_length _ _ _ Hp) as L2.
      split; [lia|].
      intros [|f'] Hf; [lia|]. cbn [parse_value].
      rewrite Hs, Hc1, Hc3, Hc4, Hp. reflexivity. }
    pose proof (parse_scalar_length _ _ _ H) as L2. simpl in L2.
    split; [lia|].
    intros [|f'] Hf; [lia|]. cbn [parse_value].
    rewrite Hs, Hc1, Hc3, Hc4. exact H.
  - intros s vs r H. cbn [parse_elements] in H.
    destruct (parse_value f s) as [[v r0]|] eqn:Hv; [|discriminate].
    destruct (IHv _ _ _ Hv) as [L0 Kv].
    destruct (skip_ws r0) as [|c r1] eqn:Hs; [discriminate|].
    pose proof (skip_ws_cons_length _ _ _ Hs) as L1.
    destruct (c =? code ",") eqn:Hc1.
    { apply consumed_Some in H as (vs' & H & ->).
      destruct (IHe _ _ _ H) as [L2 Ke].
      split; [lia|].
      intros [|f'] Hf; [lia|]. cbn [parse_elements].
      rewrite Kv by lia. rewrite Hs, Hc1, Ke by lia. reflexivity. }
    destruct (c =? code "]") eqn:Hc2; [|discriminate].
    injection H as <- <-. split; [lia|].
    intros [|f'] Hf; [lia|]. cbn [parse_elements].
    rewrite Kv by lia. rewrite Hs, Hc1, Hc2. reflexivity.
  - intros s ms r H. cbn [parse_members] in H.
    destruct (skip_ws s) as [|q s1] eqn:Hs; [discriminate|].
    pose proof (skip_ws_cons_length _ _ _ Hs) as L1.
    destruct (q =? DQUOTE) eqn:Hq; [|discriminate].
    destruct (parse_chars s1) as [[key r0]|] eqn:Hp; [|discriminate].
    pose proof (parse_chars_length _ _ _ Hp) as L2.
    destruct (skip_ws r0) as [|c r1] eqn:Hs0; [discriminate|].
    pose proof (skip_ws_cons_length _ _ _ Hs0) as L3.
    destruct (c =? code ":") eqn:Hc; [|discriminate].
    destruct (parse_value f r1) as [[v r2]|] eqn:Hv; [|discriminate].
    destruct (IHv _ _ _ Hv) as [L4 Kv].
    destruct (skip_ws r2) as [|c' r3] eqn:Hs2; [discriminate|].
    pose proof (skip_ws_cons_length _ _ _ Hs2) as L5.
    destruct (c' =? code ",") eqn:Hc1.
    { apply consumed_Some in H as (ms' & H & ->).
      destruct (IHm _ _ _ H) as [L6 Km].
      split; [lia|].
      intros [|f'] Hf; [lia|]. cbn [parse_members].
      rewrite Hs, Hq, Hp, Hs0, Hc, Kv by lia.
      rewrite Hs2, Hc1, Km by lia. reflexivity. }
    destruct (c' =? code "}") eqn:Hc2; [|discriminate].
    injection H as <- <-. split; [lia|].
    intros [|f'] Hf; [lia|]. cbn [parse_members].
    rewrite Hs, Hq, Hp, Hs0, Hc, Kv by lia.
    rewrite Hs2, Hc1, Hc2. reflexivity.
Qed.

(** No text is rejected for lack of fuel: what any bound parses, the
    bound of [JSON_parse] parses too. *)
Lemma JSON_parse_fuel (text : jsstring) (f : nat) (v : json) (r : jsstring) :
  parse_value f text = Some (v, r) -> skip_ws r = [] ->
  JSON_parse text = Some v.
Proof.
  intros H Hr. destruct (fuel_enough f) as (Hv & _).
  destruct (Hv _ _ _ H) as [L K].
  unfold JSON_parse. rewrite K by lia. rewrite Hr. reflexivity.
Qed.

(** ** The handlers, step by step *)

Lemma settle_throw (e : Exn) (s : State) :
  settle (throw e) s = (setLoading false (setError GENERIC_ERROR s), [e]).
Proof. reflexivity. Qed.

Lemma settle_ok (r : CorrectionResult) (s : State) :
  settle (ok r) s = (setLoading false (setResult (Some r) s), []).
Proof. reflexivity. Qed.

Lemma tryBody_fails (parse : jsstring -> Try CorrectionResult)
    (o : ApiOutcome) (e : Exn) :
  (try! text := responseText o in parse text) = throw e <-> CallFails parse o e.
Proof.
  split.
  - destruct o as [|[[|c t]|]]; cbn; unfold throw.
    + intros [= <-]. constructor.
    + intros [= <-]. constructor.
    + intros H. constructor; [discriminate|exact H].
    + intros [= <-]. constructor.
  - intros [| | |text e' Hne H]; try reflexivity.
    destruct text; [congruence|exact H].
Qed.

Lemma tryBody_ok (parse : jsstring -> Try CorrectionResult)
    (text : jsstring) :
  text <> [] ->
  (try! t := responseText (ApiResolves (Some text)) in parse t) = parse text.
Proof. destruct text; [congruence|reflexivity]. Qed.

Lemma labeled_begin_pending (s : State) :
  trim (inputText s) <> [] -> apiKey s <> [] ->
  Labeled.handleCorrect_begin s =
  Pending (pendingState s) (apiKey s) (Labeled.request (inputText s)).
Proof.
  intros Hi Hk. unfold Labeled.handleCorrect_begin.
  apply truthy_true in Hi, Hk. rewrite Hi, Hk. reflexivity.
Qed.

Lemma structured_begin_pending (s : State) :
  trim (inputText s) <> [] -> apiKey s <> [] ->
  Structured.handleCorrect_begin s =
  Pending (pendingState s) (apiKey s) (Structured.request (inputText s)).
Proof.
  intros Hi Hk. unfold Structured.handleCorrect_begin.
  apply truthy_true in Hi, Hk. rewrite Hi, Hk. reflexivity.
Qed.

Lemma labeled_run_pending (api : jsstring -> Labeled.Request -> ApiOutcome)
    (s : State) :
  trim (inputText s) <> [] -> apiKey s <> [] ->
  Labeled.handleCorrect api s =
  let o := api (apiKey s) (Labeled.request (inputText s)) in
  mkRun (settle (Labeled.tryBody o) (pendingState s)).1 [pendingState s]
    [(apiKey s, Labeled.request (inputText s))]
    (settle (Labeled.tryBody o) (pendingState s)).2.
Proof.
  intros Hi Hk. unfold Labeled.handleCorrect, run.
  rewrite (labeled_begin_pending s Hi Hk).
  unfold Labeled.handleCorrect_resume.
  destruct (settle _ _). reflexivity.
Qed.

Lemma structured_run_pending
    (api : jsstring -> Structured.Request -> ApiOutcome) (s : State) :
  trim (inputText s) <> [] -> apiKey s <> [] ->
  Structured.handleCorrect api s =
  let o := api (apiKey s) (Structured.request (inputText s)) in
  mkRun (settle (Structured.tryBody o) (pendingState s)).1 [pendingState s]
    [(apiKey s, Structured.request (inputText s))]
    (settle (Structured.tryBody o) (pendingState s)).2.
Proof.
  intros Hi Hk. unfold Structured.handleCorrect, run.
  rewrite (structured_begin_pending s Hi Hk).
  unfold Structured.handleCorrect_resume.
  destruct (settle _ _). reflexivity.
Qed.

Lemma JSON_parse_empty : JSON_parse [] = None.
Proof. reflexivity. Qed.

(** The schema accepts exactly the objects whose three members are
    strings, and returns those strings. *)
Lemma correctionSchema_parse_ok (data : json) (r : CorrectionResult) :
  Structured.correctionSchema_parse data = ok r <->
  exists members,
    data = JObject members /\
    get members (js "correctedText") = Some (JString (correctedText r)) /\
    get members (js "wordUsage") = Some (JString (wordUsage r)) /\
    get members (js "explanation") = Some (JString (explanation r)).
Proof.
  unfold Structured.correctionSchema_parse. split.
  - destruct data as [| | | | |members]; try discriminate.
    unfold Structured.z_string.
    destruct (get members (js "correctedText")) as [[]|] eqn:Hc;
      try discriminate.
    destruct (get members (js "wordUsage")) as [[]|] eqn:Hw;
      try discriminate.
    destruct (get members (js "explanation")) as [[]|] eqn:He;
      try discriminate.
    cbn [bind ok]. intros [= <-]. exists members.
    repeat split; assumption.
  - intros (members & -> & -> & -> & ->). destruct r. reflexivity.
Qed.

Lemma structured_parseResponse_ok (text : jsstring) (r : CorrectionResult) :
  Structured.parseResponse text = ok r <->
  exists members,
    JSON_parse text = Some (JObject members) /\
    get members (js "correctedText") = Some (JString (correctedText r)) /\
    get members (js "wordUsage") = Some (JString (wordUsage r)) /\
    get members (js "explanation") = Some (JString (explanation r)).
Proof.
  unfold Structured.parseResponse. split.
  - destruct (JSON_parse text) as [data|]; [|discriminate].
    intros H. apply correctionSchema_parse_ok in H as (m & -> & H). eauto.
  - intros (m & -> & H). apply correctionSchema_parse_ok. eauto.
Qed.

Lemma structured_parseResponse_nonempty (text : jsstring) (r : CorrectionResult) :
  Structured.parseResponse text = ok r -> text <> [].
Proof. intros H ->. discriminate H. Qed.

(** ** Labeled-section mode *)

(** C3: the text made of the line [CORRECTED_TEXT:], the line [A], a blank
    line, the line [WORD_USAGE:], the line [B], a blank line, the line
    [EXPLANATION:] and [C] parses to the record with [correctedText = A],
    [wordUsage = B] and [explanation = C]; a submission answered with
    that text stores this record, with no error and loading off. *)
Theorem labeled_three_sections :
  Labeled.parseResponse threeSections
  = ok (mkResult (js "A") (js "B") (js "C")) /\
  final (Labeled.handleCorrect (resolvesWith threeSections) readyState)
  = setResult (Some (mkResult (js "A") (js "B") (js "C"))) readyState.
Proof. split; vm_compute; reflexivity. Qed.

(** C1, as stated, fails: in a text with [CORRECTED_TEXT:] and
    [EXPLANATION:] but no [WORD_USAGE:], the section of the first marker
    is [A], yet [correctedText] holds everything up to the end of the
    text, the [EXPLANATION:] marker and its content included. *)
Lemma labeled_no_word_usage_runs_on :
  includes Labeled.WORD_USAGE noWordUsage = false /\
  includes Labeled.CORRECTED_TEXT noWordUsage = true /\
  includes Labeled.EXPLANATION noWordUsage = true /\
  sectionContent Labeled.CORRECTED_TEXT noWordUsage = Some (js "A") /\
  Labeled.parseResponse noWordUsage
  = ok (mkResult
          (js "A" ++ LF :: LF :: js "EXPLANATION:" ++ LF :: js "C")
          Labeled.NO_WORD_USAGE
          (js "C")) /\
  js "A" ++ LF :: LF :: js "EXPLANATION:" ++ LF :: js "C" <> js "A".
Proof. repeat split; vm_compute; congruence. Qed.

(** C1, amended: for every text without [WORD_USAGE:], parsing succeeds
    with [wordUsage] set to its placeholder; [explanation] is the trimmed
    text after the first [EXPLANATION:], or its placeholder; and
    [correctedText] is the trimmed text from after the first
    [CORRECTED_TEXT:] to the end of the text (only [WORD_USAGE:] would end
    it), or its placeholder.  A non-empty such response is stored as the
    result, nothing is logged and the error is left alone. *)
Theorem labeled_missing_word_usage (text : jsstring) :
  includes Labeled.WORD_USAGE text = false ->
  let r := mkResult
             (from_option trim Labeled.NO_CORRECTION
                (after Labeled.CORRECTED_TEXT text))
             Labeled.NO_WORD_USAGE
             (from_option trim Labeled.NO_EXPLANATION
                (after Labeled.EXPLANATION text)) in
  Labeled.parseResponse text = ok r /\
  (text <> [] ->
   forall s, Labeled.handleCorrect_resume (ApiResolves (Some text)) s
             = (setLoading false (setResult (Some r) s), [])).
Proof.
  intros Hno r.
  assert (Hp : Labeled.parseResponse text = ok r).
  { rewrite labeled_parseResponse_sections. subst r.
    apply after_includes in Hno as Hw. rewrite Hw. cbn [from_option].
    destruct (after Labeled.CORRECTED_TEXT text) as [c|] eqn:Hc;
      [|reflexivity].
    destruct (after_suffix _ _ _ Hc) as [pre ->].
    cbn [from_option].
    rewrite (before_absent _ _ (includes_suffix _ _ _ Hno)). reflexivity. }
  split; [exact Hp|].
  intros Hne s. unfold Labeled.handleCorrect_resume, Labeled.tryBody.
  rewrite (tryBody_ok _ _ Hne), Hp. reflexivity.
Qed.

Lemma labeled_missing_word_usage_witness :
  (includes Labeled.WORD_USAGE noWordUsage = false /\ noWordUsage <> []) /\
  Labeled.parseResponse noWordUsage
  = ok (mkResult
          (js "A" ++ LF :: LF :: js "EXPLANATION:" ++ LF :: js "C")
          Labeled.NO_WORD_USAGE
          (js "C")) /\
  result (Labeled.handleCorrect_resume (ApiResolves (Some noWordUsage))
            (pendingState readyState)).1
  = Some (mkResult
            (js "A" ++ LF :: LF :: js "EXPLANATION:" ++ LF :: js "C")
            Labeled.NO_WORD_USAGE
            (js "C")).
Proof.
  assert (Hne : noWordUsage <> []) by (vm_compute; discriminate).
  pose proof (labeled_missing_word_usage noWordUsage eq_refl) as [Hp Hs].
  split; [split; [reflexivity|exact Hne]|].
  split; [exact Hp|].
  rewrite (Hs Hne (pendingState readyState)). reflexivity.
Defined.

Lemma trimStart_split (s : jsstring) :
  exists ws, forallb isWhiteSpace ws = true /\ s = ws ++ trimStart s.
Proof.
  induction s as [|c s (ws & Hws & IH)]; simpl.
  - exists []. auto.
  - destruct (isWhiteSpace c) eqn:Hc.
    + exists (c :: ws). simpl. rewrite Hc, Hws.
      split; [reflexivity|f_equal; exact IH].
    + exists []. auto.
Qed.

Lemma forallb_reverse (f : N -> bool) (s : jsstring) :
  forallb f (reverse s) = forallb f s.
Proof.
  induction s as [|c s IH]; [reflexivity|].
  rewrite reverse_cons, forallb_app, IH. simpl.
  rewrite andb_true_r. apply andb_comm.
Qed.

Lemma trimEnd_split (s : jsstring) :
  exists ws, forallb isWhiteSpace ws = true /\ s = trimEnd s ++ ws.
Proof.
  unfold trimEnd. destruct (trimStart_split (reverse s)) as (ws & Hws & E).
  exists (reverse ws). split.
  - rewrite <- Hws. apply (forallb_reverse isWhiteSpace).
  - transitivity (reverse (ws ++ trimStart (reverse s))).
    + rewrite <- E. symmetry. apply reverse_involutive.
    + apply reverse_app.
Qed.

(** Trimming removes white space, and only white space, from the two
    ends. *)
Lemma trim_strippedFrom (s : jsstring) : strippedFrom (trim s) s.
Proof.
  split; [apply trim_trimmed|]. unfold trim.
  destruct (trimStart_split s) as (ws1 & H1 & E1).
  destruct (trimEnd_split (trimStart s)) as (ws2 & H2 & E2).
  exists ws1, ws2. split; [exact H1|]. split; [exact H2|].
  rewrite <- E2. exact E1.
Qed.

(** C9: for every text the labeled parser returns a record, and each of
    its fields has no white space at either end.  When the marker of a
    field occurs in the text, the field is its section (the text from
    after the first occurrence of the marker to the next marker of the
    pattern, or to the end of the text) without the white space around
    it: the section is white space, then the field, then white space, so
    the blank lines around the content go and the content between them
    stays as it is.  When the marker does not occur, the field is its
    placeholder, and the three placeholders have no white space at
    either end. *)
Theorem labeled_fields_trimmed (text : jsstring) :
  exists r,
    Labeled.parseResponse text = ok r /\
    trimmed (correctedText r) /\ trimmed (wordUsage r) /\
    trimmed (explanation r) /\
    correctedText r
    = from_option (fun s => trim (before Labeled.WORD_USAGE s))
        Labeled.NO_CORRECTION (after Labeled.CORRECTED_TEXT text) /\
    wordUsage r
    = from_option (fun s => trim (before Labeled.EXPLANATION s))
        Labeled.NO_WORD_USAGE (after Labeled.WORD_USAGE text) /\
    explanation r
    = from_option trim Labeled.NO_EXPLANATION
        (after Labeled.EXPLANATION text) /\
    trimmed Labeled.NO_CORRECTION /\ trimmed Labeled.NO_WORD_USAGE /\
    trimmed Labeled.NO_EXPLANATION /\
    match after Labeled.CORRECTED_TEXT text with
    | Some s => strippedFrom (correctedText r) (before Labeled.WORD_USAGE s)
    | None => correctedText r = Labeled.NO_CORRECTION
    end /\
    match after Labeled.WORD_USAGE text with
    | Some s => strippedFrom (wordUsage r) (before Labeled.EXPLANATION s)
    | None => wordUsage r = Labeled.NO_WORD_USAGE
    end /\
    match after Labeled.EXPLANATION text with
    | Some s => strippedFrom (explanation r) s
    | None => explanation r = Labeled.NO_EXPLANATION
    end.
Proof.
  destruct placeholders_trimmed as (Hc & Hw & He).
  eexists. split; [apply labeled_parseResponse_sections|].
  cbn [correctedText wordUsage explanation].
  split; [|split; [|split]].
  - apply from_option_trimmed; auto using trim_trimmed.
  - apply from_option_trimmed; auto using trim_trimmed.
  - apply from_option_trimmed; auto using trim_trimmed.
  - do 3 (split; [reflexivity|]). do 3 (split; [assumption|]).
    split; [|split].
    + destruct (after Labeled.CORRECTED_TEXT text); cbn [from_option];
        [apply trim_strippedFrom|reflexivity].
    + destruct (after Labeled.WORD_USAGE text); cbn [from_option];
        [apply trim_strippedFrom|reflexivity].
    + destruct (after Labeled.EXPLANATION text); cbn [from_option];
        [apply trim_strippedFrom|reflexivity].
Qed.

Lemma labeled_fields_trimmed_witness :
  exists r,
    Labeled.parseResponse paddedSections = ok r /\
    correctedText r = js "A" ++ LF :: LF :: js "B" /\
    strippedFrom (correctedText r)
      (LF :: LF :: js "  A" ++ LF :: LF :: js "B  " ++ [LF; LF]).
Proof.
  destruct (labeled_fields_trimmed paddedSections)
    as (r & Hp & _ & _ & _ & Hc & _ & _ & _ & _ & _ & Hs & _).
  exists r. split; [exact Hp|]. split; [exact Hc|exact Hs].
Defined.

(** The blank lines around a section go, the one inside stays. *)
Example labeled_interior_kept :
  Labeled.parseResponse
    (js "CORRECTED_TEXT:" ++ LF :: LF :: js "  A" ++ LF :: LF :: js "B  " ++
     LF :: LF :: js "WORD_USAGE:x")
  = ok (mkResult (js "A" ++ LF :: LF :: js "B") (js "x")
          Labeled.NO_EXPLANATION).
Proof. vm_compute. reflexivity. Qed.

(** ** Submitting *)

(** C6: when the input text trims to the empty string, submitting in
    either variant sends no request and renders no pending state; the
    only change to the state is the error, set to the variant's
    enter-text message, so the loading flag and every other field keep
    their values. *)
Theorem empty_input_rejected (s : State) :
  trim (inputText s) = [] ->
  (forall api,
     let r := Labeled.handleCorrect api s in
     calls r = [] /\ rendered r = [] /\ console r = [] /\
     error (final r) = Labeled.EMPTY_INPUT_ERROR /\
     final r = setError Labeled.EMPTY_INPUT_ERROR s /\
     loading (final r) = loading s /\ result (final r) = result s /\
     apiKey (final r) = apiKey s /\ showSettings (final r) = showSettings s /\
     tempApiKey (final r) = tempApiKey s /\ inputText (final r) = inputText s /\
     simpleView (final r) = simpleView s) /\
  (forall api,
     let r := Structured.handleCorrect api s in
     calls r = [] /\ rendered r = [] /\ console r = [] /\
     error (final r) = Structured.EMPTY_INPUT_ERROR /\
     final r = setError Structured.EMPTY_INPUT_ERROR s /\
     loading (final r) = loading s /\ result (final r) = result s /\
     apiKey (final r) = apiKey s /\ showSettings (final r) = showSettings s /\
     tempApiKey (final r) = tempApiKey s /\ inputText (final r) = inputText s /\
     simpleView (final r) = simpleView s).
Proof.
  intros H. split; intros api r; subst r.
  - unfold Labeled.handleCorrect, run, Labeled.handleCorrect_begin.
    rewrite H. cbn. tauto.
  - unfold Structured.handleCorrect, run, Structured.handleCorrect_begin.
    rewrite H. cbn. tauto.
Qed.

Lemma empty_input_rejected_witness :
  trim (inputText (setInputText (js "  ") readyState)) = [] /\
  calls (Labeled.handleCorrect (resolvesWith threeSections)
           (setInputText (js "  ") readyState)) = [] /\
  error (final (Structured.handleCorrect rejects
                  (setInputText (js "  ") readyState)))
  = js "Please enter text to correct.".
Proof.
  pose proof (empty_input_rejected (setInputText (js "  ") readyState) eq_refl)
    as [HL HS].
  split; [reflexivity|]. split.
  - exact (proj1 (HL (resolvesWith threeSections))).
  - exact (proj1 (proj2 (proj2 (proj2 (HS rejects))))).
Defined.

(** C7: when the input text does not trim to the empty string and the
    credential is the empty string, submitting in either variant sends no
    request, opens the settings and sets the set-API-key error; nothing
    else changes. *)
Theorem missing_credential_rejected (s : State) :
  trim (inputText s) <> [] -> apiKey s = [] ->
  (forall api,
     let r := Labeled.handleCorrect api s in
     calls r = [] /\ rendered r = [] /\
     showSettings (final r) = true /\ error (final r) = NO_KEY_ERROR /\
     final r = setError NO_KEY_ERROR (setShowSettings true s)) /\
  (forall api,
     let r := Structured.handleCorrect api s in
     calls r = [] /\ rendered r = [] /\
     showSettings (final r) = true /\ error (final r) = NO_KEY_ERROR /\
     final r = setError NO_KEY_ERROR (setShowSettings true s)).
Proof.
  intros Hi Hk. apply truthy_true in Hi.
  split; intros api r; subst r.
  - unfold Labeled.handleCorrect, run, Labeled.handleCorrect_begin.
    rewrite Hi, Hk. cbn. tauto.
  - unfold Structured.handleCorrect, run, Structured.handleCorrect_begin.
    rewrite Hi, Hk. cbn. tauto.
Qed.

Lemma missing_credential_rejected_witness :
  trim (inputText (setApiKey [] readyState)) <> [] /\
  apiKey (setApiKey [] readyState) = [] /\
  calls (Labeled.handleCorrect (resolvesWith threeSections)
           (setApiKey [] readyState)) = [] /\
  showSettings (final (Labeled.handleCorrect (resolvesWith threeSections)
                         (setApiKey [] readyState))) = true.
Proof.
  assert (Hi : trim (inputText (setApiKey [] readyState)) <> [])
    by (vm_compute; discriminate).
  pose proof (missing_credential_rejected (setApiKey [] readyState) Hi eq_refl)
    as [HL _].
  split; [exact Hi|]. split; [reflexivity|]. split.
  - exact (proj1 (HL (resolvesWith threeSections))).
  - exact (proj1 (proj2 (proj2 (HL (resolvesWith threeSections))))).
Defined.

(** C5: when a submission is accepted (the input does not trim to the
    empty string and the credential is set) and the call then fails, be
    it by the transport, by a response without text or by the parser
    throwing, the run ends with the generic error message, a null result
    and loading off, in either variant; the one state rendered on the way
    has loading on, and the cause goes to the console. *)
Theorem failed_call_ends_in_error (s : State) :
  trim (inputText s) <> [] -> apiKey s <> [] ->
  (forall api e,
     CallFails Labeled.parseResponse
       (api (apiKey s) (Labeled.request (inputText s))) e ->
     let r := Labeled.handleCorrect api s in
     error (final r) = GENERIC_ERROR /\ result (final r) = None /\
     loading (final r) = false /\
     rendered r = [pendingState s] /\ loading (pendingState s) = true /\
     console r = [e]) /\
  (forall api e,
     CallFails Structured.parseResponse
       (api (apiKey s) (Structured.request (inputText s))) e ->
     let r := Structured.handleCorrect api s in
     error (final r) = GENERIC_ERROR /\ result (final r) = None /\
     loading (final r) = false /\
     rendered r = [pendingState s] /\ loading (pendingState s) = true /\
     console r = [e]).
Proof.
  intros Hi Hk. split; intros api e Hf r; subst r.
  - rewrite (labeled_run_pending api s Hi Hk). cbv zeta.
    apply tryBody_fails in Hf. unfold Labeled.tryBody. rewrite Hf.
    rewrite settle_throw. cbn. tauto.
  - rewrite (structured_run_pending api s Hi Hk). cbv zeta.
    apply tryBody_fails in Hf. unfold Structured.tryBody. rewrite Hf.
    rewrite settle_throw. cbn. tauto.
Qed.

Lemma failed_call_ends_in_error_witness :
  (trim (inputText readyState) <> [] /\ apiKey readyState <> []) /\
  result (final (Labeled.handleCorrect rejects readyState)) = None /\
  loading (final (Structured.handleCorrect (resolvesWith numericWordUsage)
                    readyState)) = false /\
  console (Structured.handleCorrect (resolvesWith numericWordUsage) readyState)
  = [ZodError].
Proof.
  assert (Hi : trim (inputText readyState) <> []) by (vm_compute; discriminate).
  assert (Hk : apiKey readyState <> []) by (vm_compute; discriminate).
  pose proof (failed_call_ends_in_error readyState Hi Hk) as [HL HS].
  split; [split; assumption|].
  assert (HfL : CallFails Labeled.parseResponse
                  (rejects (apiKey readyState)
                     (Labeled.request (inputText readyState))) ApiError)
    by constructor.
  assert (HfS : CallFails Structured.parseResponse
                  (resolvesWith numericWordUsage (apiKey readyState)
                     (Structured.request (inputText readyState))) ZodError).
  { constructor; [vm_compute; discriminate|vm_compute; reflexivity]. }
  split; [exact (proj1 (proj2 (HL rejects ApiError HfL)))|].
  split.
  - exact (proj1 (proj2 (proj2 (HS _ ZodError HfS)))).
  - exact (proj2 (proj2 (proj2 (proj2 (proj2 (HS _ ZodError HfS)))))).
Defined.

(** ** Saving the credential *)

(** C8: when the pending credential does not trim to the empty string,
    saving writes its trimmed value under [gemini_api_key], leaves the
    other items of the storage alone, and sets the credential in memory
    to the same trimmed value: the stored and the in-memory credential
    are equal and carry no white space at either end.  The settings close,
    the pending value is cleared, and a later mount reads the same
    credential back. *)
Theorem save_credential_trims (s : State) (st : Storage) :
  trim (tempApiKey s) <> [] ->
  let s' := (handleSaveApiKey s st).1 in
  let st' := (handleSaveApiKey s st).2 in
  getItem API_KEY_ITEM st' = Some (trim (tempApiKey s)) /\
  apiKey s' = trim (tempApiKey s) /\
  getItem API_KEY_ITEM st' = Some (apiKey s') /\
  trimmed (apiKey s') /\
  (forall k, k <> API_KEY_ITEM -> getItem k st' = getItem k st) /\
  showSettings s' = false /\ tempApiKey s' = [] /\
  apiKey (onMount st' initialState) = apiKey s'.
Proof.
  intros H s' st'. subst s' st'. unfold handleSaveApiKey.
  apply truthy_true in H as Ht. rewrite Ht. cbn [fst snd].
  unfold getItem, setItem, onMount, getItem.
  rewrite lookup_insert_eq, Ht. cbn.
  split; [reflexivity|]. split; [reflexivity|]. split; [reflexivity|].
  split; [apply trim_trimmed|].
  split; [|tauto].
  intros k Hk. apply lookup_insert_ne. congruence.
Qed.

Lemma save_credential_trims_witness :
  trim (js " abc ") <> [] /\
  getItem API_KEY_ITEM
    (handleSaveApiKey (setTempApiKey (js " abc ") initialState) ∅).2
  = Some (js "abc") /\
  apiKey (handleSaveApiKey (setTempApiKey (js " abc ") initialState) ∅).1
  = js "abc".
Proof.
  assert (H : trim (tempApiKey (setTempApiKey (js " abc ") initialState)) <> [])
    by (vm_compute; discriminate).
  pose proof (save_credential_trims
                (setTempApiKey (js " abc ") initialState) ∅ H)
    as (Hst & Hk & _).
  split; [exact H|]. split; [exact Hst|exact Hk].
Defined.

(** C10: when the pending credential trims to the empty string, saving
    changes nothing: the storage and the whole state, with the
    credential, the settings flag and the pending value, stay as they
    were. *)
Theorem save_blank_credential_noop (s : State) (st : Storage) :
  trim (tempApiKey s) = [] ->
  handleSaveApiKey s st = (s, st) /\
  (handleSaveApiKey s st).2 = st /\
  apiKey (handleSaveApiKey s st).1 = apiKey s /\
  showSettings (handleSaveApiKey s st).1 = showSettings s /\
  tempApiKey (handleSaveApiKey s st).1 = tempApiKey s.
Proof.
  intros H. unfold handleSaveApiKey. rewrite H. cbn. tauto.
Qed.

Lemma save_blank_credential_noop_witness :
  trim (js "   ") = [] /\
  handleSaveApiKey (setShowSettings true (setTempApiKey (js "   ") initialState)) ∅
  = (setShowSettings true (setTempApiKey (js "   ") initialState), ∅).
Proof.
  split; [reflexivity|].
  exact (proj1 (save_blank_credential_noop
                  (setShowSettings true (setTempApiKey (js "   ") initialState))
                  ∅ eq_refl)).
Defined.

(** ** Structured mode *)

(** C2, as stated, fails: a response whose three fields are empty
    strings decodes, and the record stored as the result has empty
    fields. *)
Lemma structured_accepts_empty_strings :
  Structured.parseResponse (emptyFields) = ok (mkResult [] [] []) /\
  result (final (Structured.handleCorrect
                   (resolvesWith (emptyFields)) readyState))
  = Some (mkResult [] [] []) /\
  correctedText (mkResult [] [] []) = [].
Proof. repeat split; vm_compute; reflexivity. Qed.

(** C2, amended: for an accepted submission answered with a text, when
    decoding the text against the schema throws, the run takes the error
    path (generic error, null result, loading off, the cause on the
    console) and stores nothing; when decoding succeeds, the stored
    record holds the three string members of the decoded object, which
    may be empty strings. *)
Theorem structured_decode_all_or_nothing (s : State)
    (api : jsstring -> Structured.Request -> ApiOutcome) (text : jsstring) :
  trim (inputText s) <> [] -> apiKey s <> [] ->
  api (apiKey s) (Structured.request (inputText s)) = ApiResolves (Some text) ->
  let r := Structured.handleCorrect api s in
  (forall e, Structured.parseResponse text = throw e ->
     result (final r) = None /\ error (final r) = GENERIC_ERROR /\
     loading (final r) = false /\
     console r = [if truthy text then e else NoResponse]) /\
  (forall res, Structured.parseResponse text = ok res ->
     result (final r) = Some res /\ error (final r) = [] /\
     loading (final r) = false /\ console r = [] /\
     exists members,
       JSON_parse text = Some (JObject members) /\
       get members (js "correctedText") = Some (JString (correctedText res)) /\
       get members (js "wordUsage") = Some (JString (wordUsage res)) /\
       get members (js "explanation") = Some (JString (explanation res))).
Proof.
  intros Hi Hk Ho r. subst r.
  rewrite (structured_run_pending api s Hi Hk). cbv zeta. rewrite Ho.
  unfold Structured.tryBody. split.
  - intros e He. destruct text as [|c t].
    + cbn. tauto.
    + rewrite tryBody_ok by discriminate. rewrite He, settle_throw.
      cbn. tauto.
  - intros res Hres.
    rewrite (tryBody_ok _ _ (structured_parseResponse_nonempty _ _ Hres)).
    rewrite Hres, settle_ok. cbn [fst snd final console].
    split; [reflexivity|]. split; [reflexivity|]. split; [reflexivity|].
    split; [reflexivity|]. apply structured_parseResponse_ok, Hres.
Qed.

Lemma structured_decode_all_or_nothing_witness :
  (trim (inputText readyState) <> [] /\ apiKey readyState <> []) /\
  result (final (Structured.handleCorrect
                   (resolvesWith numericWordUsage) readyState)) = None /\
  result (final (Structured.handleCorrect
                   (resolvesWith (emptyCorrection)) readyState))
  = Some (mkResult [] (js "B") (js "C")).
Proof.
  assert (Hi : trim (inputText readyState) <> []) by (vm_compute; discriminate).
  assert (Hk : apiKey readyState <> []) by (vm_compute; discriminate).
  split; [split; assumption|]. split.
  - refine (proj1 (proj1 (structured_decode_all_or_nothing readyState
                            (resolvesWith numericWordUsage) numericWordUsage
                            Hi Hk eq_refl) ZodError _)).
    vm_compute. reflexivity.
  - refine (proj1 (proj2 (structured_decode_all_or_nothing readyState
                            (resolvesWith (emptyCorrection))
                            (emptyCorrection) Hi Hk eq_refl)
                     (mkResult [] (js "B") (js "C")) _)).
    vm_compute. reflexivity.
Defined.

(** C4: for an accepted submission (input not blank, credential set)
    answered with a text that decodes to an object whose [correctedText],
    [wordUsage] and [explanation] members are strings, the stored result
    is the record of exactly those three strings; the error stays empty,
    loading ends off, nothing is logged and one request was sent. *)
Theorem structured_roundtrip (s : State)
    (api : jsstring -> Structured.Request -> ApiOutcome) (text : jsstring)
    (members : list (jsstring * json)) (c w e : jsstring) :
  trim (inputText s) <> [] -> apiKey s <> [] ->
  api (apiKey s) (Structured.request (inputText s)) = ApiResolves (Some text) ->
  JSON_parse text = Some (JObject members) ->
  get members (js "correctedText") = Some (JString c) ->
  get members (js "wordUsage") = Some (JString w) ->
  get members (js "explanation") = Some (JString e) ->
  let r := Structured.handleCorrect api s in
  result (final r) = Some (mkResult c w e) /\
  error (final r) = [] /\ loading (final r) = false /\ console r = [] /\
  calls r = [(apiKey s, Structured.request (inputText s))].
Proof.
  intros Hi Hk Ho Hj Hc Hw He r. subst r.
  assert (Hp : Structured.parseResponse text = ok (mkResult c w e)).
  { apply structured_parseResponse_ok. exists members. auto. }
  rewrite (structured_run_pending api s Hi Hk). cbv zeta. rewrite Ho.
  unfold Structured.tryBody.
  rewrite (tryBody_ok _ _ (structured_parseResponse_nonempty _ _ Hp)).
  rewrite Hp, settle_ok. cbn. tauto.
Qed.

Lemma structured_roundtrip_witness :
  (trim (inputText readyState) <> [] /\ apiKey readyState <> []) /\
  result (final (Structured.handleCorrect
                   (resolvesWith (threeFields " He goes home. " "go" "C  "))
                   readyState))
  = Some (mkResult (js " He goes home. ") (js "go") (js "C  ")).
Proof.
  assert (Hi : trim (inputText readyState) <> []) by (vm_compute; discriminate).
  assert (Hk : apiKey readyState <> []) by (vm_compute; discriminate).
  split; [split; assumption|].
  refine (proj1 (structured_roundtrip readyState
                   (resolvesWith (threeFields " He goes home. " "go" "C  "))
                   (threeFields " He goes home. " "go" "C  ")
                   [(js "correctedText", JString (js " He goes home. "));
                    (js "wordUsage", JString (js "go"));
                    (js "explanation", JString (js "C  "))]
                   (js " He goes home. ") (js "go") (js "C  ")
                   Hi Hk eq_refl _ _ _ _));
    vm_compute; reflexivity.
Defined.


(** * Beyond the submit handler *)

(** ** First occurrences *)

Lemma startsWith_true (p s : jsstring) :
  startsWith p s = true <-> exists r, s = p ++ r.
Proof.
  unfold startsWith. split.
  - destruct (match_chars p s) as [r|] eqn:H; [|discriminate].
    intros _. exists r. apply match_chars_Some, H.
  - intros [r Hr]. apply match_chars_Some in Hr. rewrite Hr. reflexivity.
Qed.

Lemma startsWith_app (p s r : jsstring) :
  startsWith p s = true -> startsWith p (s ++ r) = true.
Proof.
  rewrite !startsWith_true. intros [x ->]. exists (x ++ r).
  rewrite app_assoc. reflexivity.
Qed.

Lemma after_hit (p s r : jsstring) :
  match_chars p s = Some r -> after p s = Some r.
Proof. intros H. destruct s; cbn [after]; rewrite H; reflexivity. Qed.

Lemma before_hit (p s : jsstring) : startsWith p s = true -> before p s = [].
Proof. intros H. destruct s; cbn [before]; rewrite H; reflexivity. Qed.

Lemma includes_app_l (p m r : jsstring) :
  includes p m = true -> includes p (m ++ r) = true.
Proof.
  induction m as [|c m IH].
  - cbn [includes]. rewrite orb_false_r. intros H.
    apply (startsWith_app _ _ r) in H. change (includes p r = true).
    change (startsWith p r = true) in H.
    destruct r; cbn [includes]; rewrite H; reflexivity.
  - cbn [includes app]. intros H. apply orb_true_iff in H as [H|H].
    + apply (startsWith_app _ _ r) in H. simpl in H. rewrite H. reflexivity.
    + rewrite (IH H). apply orb_true_r.
Qed.

Lemma includes_prefix (p m r : jsstring) :
  includes p (m ++ r) = false -> includes p m = false.
Proof.
  intros H. destruct (includes p m) eqn:E; [|reflexivity].
  rewrite (includes_app_l _ _ r E) in H. discriminate.
Qed.

(** Two splits of one text at the first [z] are the same split. *)
Lemma first_split_unique (z : char) (u v x y : jsstring) :
  z ∉ u -> z ∉ v -> u ++ z :: x = v ++ z :: y -> u = v /\ x = y.
Proof.
  revert v. induction u as [|a u IH]; intros [|b v] Hu Hv E; simpl in E.
  - injection E as ->. auto.
  - injection E as <- _. exfalso. apply Hv. left.
  - injection E as -> _. exfalso. apply Hu. left.
  - injection E as -> E. apply not_elem_of_cons in Hu as [_ Hu].
    apply not_elem_of_cons in Hv as [_ Hv].
    destruct (IH v Hu Hv E) as [-> ->]. auto.
Qed.

(** A marker whose last character occurs nowhere else in it cannot
    overlap a later copy of itself: an occurrence that starts before the
    copy lies before it altogether. *)
Lemma no_overlap (body : jsstring) (z : char) (a rest : jsstring) :
  z ∉ body -> a <> [] ->
  startsWith (body ++ [z]) (a ++ (body ++ [z]) ++ rest) = true ->
  startsWith (body ++ [z]) a = true.
Proof.
  intros Hz Ha H. apply startsWith_true in H as [r Hr].
  rewrite <- !app_assoc in Hr. simpl in Hr.
  apply startsWith_true.
  destruct (decide (z ∈ a)) as [Hin|Hout].
  - apply list_elem_of_split_l in Hin as (a1 & a2 & -> & Hz1).
    rewrite <- app_assoc in Hr. simpl in Hr.
    apply first_split_unique in Hr as [-> _]; [|assumption..].
    exists a2. rewrite <- app_assoc. reflexivity.
  - exfalso. rewrite app_assoc in Hr.
    apply first_split_unique in Hr as [Hab _]; [| |assumption].
    + apply (f_equal length) in Hab. rewrite length_app in Hab.
      destruct a; [congruence|simpl in Hab; lia].
    + rewrite elem_of_app. tauto.
Qed.

(** The first occurrence of such a marker in a text is the copy that no
    occurrence precedes. *)
Lemma first_occurrence (body : jsstring) (z : char) (pre rest : jsstring) :
  z ∉ body -> includes (body ++ [z]) pre = false ->
  after (body ++ [z]) (pre ++ (body ++ [z]) ++ rest) = Some rest /\
  before (body ++ [z]) (pre ++ (body ++ [z]) ++ rest) = pre.
Proof.
  intros Hz. induction pre as [|x pre IH]; intros Hno.
  - simpl. split.
    + apply after_hit, match_chars_Some. reflexivity.
    + apply before_hit, startsWith_true. eauto.
  - cbn [includes] in Hno. apply orb_false_elim in Hno as [Hx Hno].
    destruct (IH Hno) as [IHa IHb].
    assert (Hs : startsWith (body ++ [z])
                   ((x :: pre) ++ (body ++ [z]) ++ rest) = false).
    { destruct (startsWith _ ((x :: pre) ++ _)) eqn:E; [|reflexivity].
      apply no_overlap in E; [congruence|assumption|discriminate]. }
    cbn [app after before] in *. rewrite Hs.
    unfold startsWith in Hs.
    destruct (match_chars _ _); [discriminate|].
    rewrite IHa, IHb. auto.
Qed.

Lemma colon_not_in_markers :
  (58 ∉ js "WORD_USAGE") /\ (58 ∉ js "EXPLANATION").
Proof. split; apply (bool_decide_unpack _); vm_compute; exact I. Qed.

Lemma first_WORD_USAGE (pre rest : jsstring) :
  includes Labeled.WORD_USAGE pre = false ->
  after Labeled.WORD_USAGE (pre ++ Labeled.WORD_USAGE ++ rest) = Some rest /\
  before Labeled.WORD_USAGE (pre ++ Labeled.WORD_USAGE ++ rest) = pre.
Proof.
  exact (first_occurrence (js "WORD_USAGE") 58 pre rest
           (proj1 colon_not_in_markers)).
Qed.

Lemma first_EXPLANATION (pre rest : jsstring) :
  includes Labeled.EXPLANATION pre = false ->
  after Labeled.EXPLANATION (pre ++ Labeled.EXPLANATION ++ rest) = Some rest /\
  before Labeled.EXPLANATION (pre ++ Labeled.EXPLANATION ++ rest) = pre.
Proof.
  exact (first_occurrence (js "EXPLANATION") 58 pre rest
           (proj2 colon_not_in_markers)).
Qed.

(** X1: a response made of the three markers in order, each followed by
    its content, parses to the three contents, trimmed, provided the
    [WORD_USAGE:] and [EXPLANATION:] markers shown are the first
    occurrences of these markers in the text. *)
Theorem labeled_roundtrip (a b c : jsstring) :
  includes Labeled.WORD_USAGE (Labeled.CORRECTED_TEXT ++ a) = false ->
  includes Labeled.EXPLANATION
    (Labeled.CORRECTED_TEXT ++ a ++ Labeled.WORD_USAGE ++ b) = false ->
  Labeled.parseResponse (labeledText a b c)
  = ok (mkResult (trim a) (trim b) (trim c)).
Proof.
  intros Hw He. rewrite labeled_parseResponse_sections. unfold labeledText.
  rewrite (after_hit Labeled.CORRECTED_TEXT _
             (a ++ Labeled.WORD_USAGE ++ b ++ Labeled.EXPLANATION ++ c))
    by (apply match_chars_Some; reflexivity).
  cbn [from_option].
  destruct (first_WORD_USAGE a (b ++ Labeled.EXPLANATION ++ c)
              (includes_suffix _ _ _ Hw)) as [_ ->].
  pose proof (first_WORD_USAGE (Labeled.CORRECTED_TEXT ++ a)
                (b ++ Labeled.EXPLANATION ++ c) Hw) as [Ha _].
  rewrite <- app_assoc in Ha. rewrite Ha. cbn [from_option].
  assert (Hb : includes Labeled.EXPLANATION b = false).
  { apply (includes_suffix _ (Labeled.CORRECTED_TEXT ++ a ++ Labeled.WORD_USAGE)).
    rewrite <- !app_assoc. exact He. }
  destruct (first_EXPLANATION b c Hb) as [_ ->].
  pose proof (first_EXPLANATION
                (Labeled.CORRECTED_TEXT ++ a ++ Labeled.WORD_USAGE ++ b) c He)
    as [Hc _].
  rewrite <- !app_assoc in Hc. rewrite Hc. reflexivity.
Qed.

Lemma labeled_roundtrip_witness :
  (includes Labeled.WORD_USAGE (Labeled.CORRECTED_TEXT ++ js " He goes. ")
   = false /\
   includes Labeled.EXPLANATION
     (Labeled.CORRECTED_TEXT ++ js " He goes. " ++ Labeled.WORD_USAGE ++
      LF :: js "go: verb" ++ [LF]) = false) /\
  Labeled.parseResponse
    (labeledText (js " He goes. ") (LF :: js "go: verb" ++ [LF])
       (js " EXPLANATION: add s"))
  = ok (mkResult (js "He goes.") (js "go: verb") (js "EXPLANATION: add s")).
Proof.
  split; [split; reflexivity|].
  exact (labeled_roundtrip (js " He goes. ") (LF :: js "go: verb" ++ [LF])
           (js " EXPLANATION: add s") eq_refl eq_refl).
Defined.

Lemma includes_before (p s : jsstring) :
  p <> [] -> includes p (before p s) = false.
Proof.
  intros Hp.
  assert (Hnil : startsWith p [] = false).
  { destruct p; [congruence|reflexivity]. }
  induction s as [|c s IH]; cbn [before].
  - rewrite Hnil. cbn [includes]. rewrite Hnil. reflexivity.
  - destruct (startsWith p (c :: s)) eqn:Hs.
    + cbn [includes]. rewrite Hnil. reflexivity.
    + cbn [includes]. rewrite IH, orb_false_r.
      destruct (startsWith p (c :: before p s)) eqn:E; [|reflexivity].
      assert (Hpre : exists r, s = before p s ++ r).
      { clear. induction s as [|x s [r Hr]]; cbn [before].
        - exists []. destruct (startsWith p []); reflexivity.
        - destruct (startsWith p (x :: s)).
          + exists (x :: s). reflexivity.
          + exists r. simpl. congruence. }
      destruct Hpre as [r Hr].
      apply (startsWith_app _ _ r) in E. simpl in E. rewrite <- Hr in E.
      congruence.
Qed.

Lemma includes_trim (p s : jsstring) :
  includes p s = false -> includes p (trim s) = false.
Proof.
  intros H. unfold trim.
  destruct (trimStart_suffix s) as [ws1 E1].
  destruct (trimEnd_prefix (trimStart s)) as [ws2 E2].
  rewrite E1 in H. apply includes_suffix in H.
  rewrite E2 in H. apply includes_prefix in H. exact H.
Qed.

(** X2: whatever the text, the parsed [correctedText] holds no
    [WORD_USAGE:] marker and the parsed [wordUsage] holds no
    [EXPLANATION:] marker. *)
Theorem labeled_next_marker_never_captured (text : jsstring) :
  exists r,
    Labeled.parseResponse text = ok r /\
    includes Labeled.WORD_USAGE (correctedText r) = false /\
    includes Labeled.EXPLANATION (wordUsage r) = false.
Proof.
  eexists. split; [apply labeled_parseResponse_sections|].
  cbn [correctedText wordUsage]. split.
  - destruct (after Labeled.CORRECTED_TEXT text); cbn [from_option];
      [|reflexivity].
    apply includes_trim, includes_before. discriminate.
  - destruct (after Labeled.WORD_USAGE text); cbn [from_option];
      [|reflexivity].
    apply includes_trim, includes_before. discriminate.
Qed.

(** X3: in the labeled variant, when the call resolves with a non-empty
    text, whatever the text and whatever state the component is in when
    the call settles (other events may have come in while it was
    pending), the handler stores the parsed record as the result, turns
    loading off and logs nothing; it leaves every other field as it was
    at settlement, the error included.  The labeled parser cannot fail:
    a response without any marker is stored as three placeholders. *)
Theorem labeled_response_always_stored (s : State) (text : jsstring) :
  text <> [] ->
  exists res,
    Labeled.parseResponse text = ok res /\
    Labeled.handleCorrect_resume (ApiResolves (Some text)) s
    = (setLoading false (setResult (Some res) s), []) /\
    result (Labeled.handleCorrect_resume (ApiResolves (Some text)) s).1
    = Some res /\
    loading (Labeled.handleCorrect_resume (ApiResolves (Some text)) s).1
    = false /\
    error (Labeled.handleCorrect_resume (ApiResolves (Some text)) s).1
    = error s.
Proof.
  intros Ht. eexists. split; [apply labeled_parseResponse_sections|].
  unfold Labeled.handleCorrect_resume, Labeled.tryBody.
  rewrite (tryBody_ok _ _ Ht), labeled_parseResponse_sections, settle_ok.
  cbn. tauto.
Qed.

Lemma labeled_response_always_stored_witness :
  js "Sorry, I cannot help." <> [] /\
  result (Labeled.handleCorrect_resume
            (ApiResolves (Some (js "Sorry, I cannot help.")))
            pasteFailedWhilePending).1
  = Some (mkResult Labeled.NO_CORRECTION Labeled.NO_WORD_USAGE
            Labeled.NO_EXPLANATION) /\
  error (Labeled.handleCorrect_resume
           (ApiResolves (Some (js "Sorry, I cannot help.")))
           pasteFailedWhilePending).1
  = PASTE_ERROR.
Proof.
  assert (Ht : js "Sorry, I cannot help." <> []) by discriminate.
  destruct (labeled_response_always_stored pasteFailedWhilePending
              (js "Sorry, I cannot help.") Ht)
    as (res & Hp & _ & Hr & _ & He).
  split; [exact Ht|]. split; [|exact He].
  rewrite Hr. f_equal.
  assert (Hq : Labeled.parseResponse (js "Sorry, I cannot help.")
               = ok (mkResult Labeled.NO_CORRECTION Labeled.NO_WORD_USAGE
                       Labeled.NO_EXPLANATION)) by (vm_compute; reflexivity).
  rewrite Hq in Hp. injection Hp as <-. reflexivity.
Defined.

(** ** A response that lacks its first or its last marker *)

(** X4: unlike a missing [WORD_USAGE:], a missing first or last marker
    costs only its own field.  A text made of [CORRECTED_TEXT:] with its
    content and [WORD_USAGE:] with its content, without [EXPLANATION:],
    parses to the two trimmed contents and the explanation placeholder;
    a text made of [WORD_USAGE:] with its content and [EXPLANATION:] with
    its content, without [CORRECTED_TEXT:], parses to the correction
    placeholder and the two trimmed contents.  In both, the markers shown
    are the first occurrences of themselves. *)
Theorem labeled_outer_marker_missing (a b c : jsstring) :
  (includes Labeled.WORD_USAGE (Labeled.CORRECTED_TEXT ++ a) = false ->
   includes Labeled.EXPLANATION
     (Labeled.CORRECTED_TEXT ++ a ++ Labeled.WORD_USAGE ++ b) = false ->
   Labeled.parseResponse
     (Labeled.CORRECTED_TEXT ++ a ++ Labeled.WORD_USAGE ++ b)
   = ok (mkResult (trim a) (trim b) Labeled.NO_EXPLANATION)) /\
  (includes Labeled.CORRECTED_TEXT
     (Labeled.WORD_USAGE ++ b ++ Labeled.EXPLANATION ++ c) = false ->
   includes Labeled.EXPLANATION (Labeled.WORD_USAGE ++ b) = false ->
   Labeled.parseResponse
     (Labeled.WORD_USAGE ++ b ++ Labeled.EXPLANATION ++ c)
   = ok (mkResult Labeled.NO_CORRECTION (trim b) (trim c))).
Proof.
  split.
  - intros Hw He. rewrite labeled_parseResponse_sections.
    rewrite (after_hit Labeled.CORRECTED_TEXT _ (a ++ Labeled.WORD_USAGE ++ b))
      by (apply match_chars_Some; reflexivity).
    cbn [from_option].
    pose proof (first_WORD_USAGE a b (includes_suffix _ _ _ Hw)) as [_ Hb].
    rewrite Hb.
    pose proof (first_WORD_USAGE (Labeled.CORRECTED_TEXT ++ a) b Hw) as [Ha _].
    rewrite <- app_assoc in Ha. rewrite Ha. cbn [from_option].
    rewrite (before_absent Labeled.EXPLANATION b).
    + rewrite (proj2 (after_includes _ _) He). reflexivity.
    + apply (includes_suffix _
               (Labeled.CORRECTED_TEXT ++ a ++ Labeled.WORD_USAGE)).
      rewrite <- !app_assoc. exact He.
  - intros Hc He. rewrite labeled_parseResponse_sections.
    rewrite (proj2 (after_includes _ _) Hc). cbn [from_option].
    rewrite (after_hit Labeled.WORD_USAGE _ (b ++ Labeled.EXPLANATION ++ c))
      by (apply match_chars_Some; reflexivity).
    cbn [from_option].
    pose proof (first_EXPLANATION b c (includes_suffix _ _ _ He)) as [_ Hb].
    rewrite Hb.
    pose proof (first_EXPLANATION (Labeled.WORD_USAGE ++ b) c He) as [Ha _].
    rewrite <- app_assoc in Ha. rewrite Ha. reflexivity.
Qed.

Lemma labeled_outer_marker_missing_witness :
  (includes Labeled.WORD_USAGE (Labeled.CORRECTED_TEXT ++ js " A ") = false /\
   includes Labeled.EXPLANATION
     (Labeled.CORRECTED_TEXT ++ js " A " ++ Labeled.WORD_USAGE ++ js " B ")
   = false /\
   includes Labeled.CORRECTED_TEXT
     (Labeled.WORD_USAGE ++ js " B " ++ Labeled.EXPLANATION ++ js " C ")
   = false /\
   includes Labeled.EXPLANATION (Labeled.WORD_USAGE ++ js " B ") = false) /\
  Labeled.parseResponse
    (Labeled.CORRECTED_TEXT ++ js " A " ++ Labeled.WORD_USAGE ++ js " B ")
  = ok (mkResult (js "A") (js "B") Labeled.NO_EXPLANATION) /\
  Labeled.parseResponse
    (Labeled.WORD_USAGE ++ js " B " ++ Labeled.EXPLANATION ++ js " C ")
  = ok (mkResult Labeled.NO_CORRECTION (js "B") (js "C")).
Proof.
  pose proof (labeled_outer_marker_missing (js " A ") (js " B ") (js " C "))
    as [H1 H2].
  split; [repeat split; reflexivity|]. split.
  - exact (H1 eq_refl eq_refl).
  - exact (H2 eq_refl eq_refl).
Defined.

(** ** Every run of a submission *)

Lemma labeled_run_rejected (api : jsstring -> Labeled.Request -> ApiOutcome)
    (s : State) :
  truthy (trim (inputText s)) && truthy (apiKey s) = false ->
  Labeled.handleCorrect api s =
  mkRun (if truthy (trim (inputText s))
         then setError NO_KEY_ERROR (setShowSettings true s)
         else setError Labeled.EMPTY_INPUT_ERROR s) [] [] [].
Proof.
  intros H. unfold Labeled.handleCorrect, run, Labeled.handleCorrect_begin.
  destruct (truthy (trim (inputText s))); [|reflexivity].
  simpl in H. rewrite H. reflexivity.
Qed.

Lemma structured_run_rejected
    (api : jsstring -> Structured.Request -> ApiOutcome) (s : State) :
  truthy (trim (inputText s)) && truthy (apiKey s) = false ->
  Structured.handleCorrect api s =
  mkRun (if truthy (trim (inputText s))
         then setError NO_KEY_ERROR (setShowSettings true s)
         else setError Structured.EMPTY_INPUT_ERROR s) [] [] [].
Proof.
  intros H.
  unfold Structured.handleCorrect, run, Structured.handleCorrect_begin.
  destruct (truthy (trim (inputText s))); [|reflexivity].
  simpl in H. rewrite H. reflexivity.
Qed.

Lemma accepted_split (s : State) :
  truthy (trim (inputText s)) && truthy (apiKey s) = true ->
  trim (inputText s) <> [] /\ apiKey s <> [].
Proof.
  intros H. apply andb_true_iff in H as [Hi Hk].
  split; apply truthy_true; assumption.
Qed.

(** X5: a submission sends at most one request, whatever the call then
    does: exactly one, with the credential of the state and the request
    built from the input as typed, when the input is not blank and the
    credential is set; none otherwise.  A failed call is not retried. *)
Theorem one_request_per_submit (s : State) :
  (forall api,
     calls (Labeled.handleCorrect api s)
     = if truthy (trim (inputText s)) && truthy (apiKey s)
       then [(apiKey s, Labeled.request (inputText s))] else []) /\
  (forall api,
     calls (Structured.handleCorrect api s)
     = if truthy (trim (inputText s)) && truthy (apiKey s)
       then [(apiKey s, Structured.request (inputText s))] else []).
Proof.
  split; intros api;
    destruct (truthy (trim (inputText s)) && truthy (apiKey s)) eqn:H.
  - destruct (accepted_split s H) as [Hi Hk].
    rewrite (labeled_run_pending api s Hi Hk). reflexivity.
  - rewrite (labeled_run_rejected api s H). reflexivity.
  - destruct (accepted_split s H) as [Hi Hk].
    rewrite (structured_run_pending api s Hi Hk). reflexivity.
  - rewrite (structured_run_rejected api s H). reflexivity.
Qed.

Lemma settle_frame (body : Try CorrectionResult) (s : State) :
  apiKey (settle body s).1 = apiKey s /\
  inputText (settle body s).1 = inputText s /\
  tempApiKey (settle body s).1 = tempApiKey s /\
  simpleView (settle body s).1 = simpleView s /\
  showSettings (settle body s).1 = showSettings s /\
  loading (settle body s).1 = false.
Proof. destruct body; cbn; tauto. Qed.

(** X6: submitting never changes the credential, the input text, the
    pending credential or the view mode, whatever the call does; the
    settings flag changes only by being switched on, and only when the
    input is not blank and the credential is missing. *)
Theorem submit_frame (s : State) :
  (forall api,
     let r := Labeled.handleCorrect api s in
     apiKey (final r) = apiKey s /\ inputText (final r) = inputText s /\
     tempApiKey (final r) = tempApiKey s /\
     simpleView (final r) = simpleView s /\
     showSettings (final r)
     = showSettings s
       || (truthy (trim (inputText s)) && negb (truthy (apiKey s)))) /\
  (forall api,
     let r := Structured.handleCorrect api s in
     apiKey (final r) = apiKey s /\ inputText (final r) = inputText s /\
     tempApiKey (final r) = tempApiKey s /\
     simpleView (final r) = simpleView s /\
     showSettings (final r)
     = showSettings s
       || (truthy (trim (inputText s)) && negb (truthy (apiKey s)))).
Proof.
  split; intros api r; subst r;
    destruct (truthy (trim (inputText s)) && truthy (apiKey s)) eqn:H.
  - destruct (accepted_split s H) as [Hi Hk].
    rewrite (labeled_run_pending api s Hi Hk). cbv zeta. cbn [final].
    apply andb_true_iff in H as [-> ->].
    destruct (settle_frame
                (Labeled.tryBody (api (apiKey s) (Labeled.request (inputText s))))
                (pendingState s)) as (-> & -> & -> & -> & -> & _).
    cbn. rewrite orb_false_r. tauto.
  - rewrite (labeled_run_rejected api s H). cbn [final].
    destruct (truthy (trim (inputText s))); cbn in *.
    + rewrite H. cbn. rewrite orb_true_r. tauto.
    + rewrite orb_false_r. tauto.
  - destruct (accepted_split s H) as [Hi Hk].
    rewrite (structured_run_pending api s Hi Hk). cbv zeta. cbn [final].
    apply andb_true_iff in H as [-> ->].
    destruct (settle_frame
                (Structured.tryBody
                   (api (apiKey s) (Structured.request (inputText s))))
                (pendingState s)) as (-> & -> & -> & -> & -> & _).
    cbn. rewrite orb_false_r. tauto.
  - rewrite (structured_run_rejected api s H). cbn [final].
    destruct (truthy (trim (inputText s))); cbn in *.
    + rewrite H. cbn. rewrite orb_true_r. tauto.
    + rewrite orb_false_r. tauto.
Qed.

Lemma settle_outcome (body : Try CorrectionResult) (s : State) :
  loading (settle body (pendingState s)).1 = false /\
  ((exists res, body = ok res /\
                result (settle body (pendingState s)).1 = Some res /\
                error (settle body (pendingState s)).1 = [] /\
                (settle body (pendingState s)).2 = []) \/
   (exists e, body = throw e /\
              result (settle body (pendingState s)).1 = None /\
              error (settle body (pendingState s)).1 = GENERIC_ERROR /\
              (settle body (pendingState s)).2 = [e])).
Proof.
  destruct body as [e|res]; cbn; split; trivial.
  - right. exists e. auto.
  - left. exists res. auto.
Qed.

Lemma labeled_accepted_run (s : State)
    (api : jsstring -> Labeled.Request -> ApiOutcome) :
  trim (inputText s) <> [] -> apiKey s <> [] ->
  let r := Labeled.handleCorrect api s in
  loading (final r) = false /\
  rendered r = [pendingState s] /\
  ((exists res, result (final r) = Some res /\ error (final r) = [] /\
                console r = []) \/
   (exists e, result (final r) = None /\ error (final r) = GENERIC_ERROR /\
              console r = [e])).
Proof.
  intros Hi Hk r. subst r.
  rewrite (labeled_run_pending api s Hi Hk). cbv zeta.
  cbn [final rendered console].
  destruct (settle_outcome
              (Labeled.tryBody (api (apiKey s) (Labeled.request (inputText s))))
              s) as [Hl [(res & _ & H)|(e & _ & H)]];
    (split; [exact Hl|split; [reflexivity|eauto]]).
Qed.

Lemma structured_accepted_run (s : State)
    (api : jsstring -> Structured.Request -> ApiOutcome) :
  trim (inputText s) <> [] -> apiKey s <> [] ->
  let r := Structured.handleCorrect api s in
  loading (final r) = false /\
  rendered r = [pendingState s] /\
  ((exists res, result (final r) = Some res /\ error (final r) = [] /\
                console r = []) \/
   (exists e, result (final r) = None /\ error (final r) = GENERIC_ERROR /\
              console r = [e])).
Proof.
  intros Hi Hk r. subst r.
  rewrite (structured_run_pending api s Hi Hk). cbv zeta.
  cbn [final rendered console].
  destruct (settle_outcome
              (Structured.tryBody
                 (api (apiKey s) (Structured.request (inputText s))))
              s) as [Hl [(res & _ & H)|(e & _ & H)]];
    (split; [exact Hl|split; [reflexivity|eauto]]).
Qed.

(** ** Blank input *)

Lemma trimStart_nil (s : jsstring) :
  trimStart s = [] <-> forallb isWhiteSpace s = true.
Proof.
  induction s as [|c s IH]; simpl; [tauto|].
  destruct (isWhiteSpace c); simpl; [exact IH|].
  split; discriminate.
Qed.

Lemma trim_nil (s : jsstring) :
  trim s = [] <-> forallb isWhiteSpace s = true.
Proof.
  rewrite <- trimStart_nil. unfold trim. split.
  - intros H. destruct (trimStart s) as [|c t] eqn:E; [reflexivity|].
    exfalso. unfold trimEnd in H.
    apply (f_equal reverse) in H. rewrite reverse_involutive in H.
    change (reverse []) with (@nil N) in H.
    apply trimStart_nil in H. rewrite forallb_reverse in H.
    simpl in H. apply andb_true_iff in H as [Hc _].
    pose proof (trimStart_head s c) as Hh. rewrite E in Hh.
    rewrite (Hh eq_refl) in Hc. discriminate.
  - intros ->. reflexivity.
Qed.

(** X8: in either variant, whatever else the state holds and whatever
    the call would do, a submission ends with the variant's enter-text
    error exactly when every character of the input is a white-space
    character (the empty input included). *)
Theorem enter_text_error_iff_blank (s : State) :
  (forall api,
     error (final (Labeled.handleCorrect api s)) = Labeled.EMPTY_INPUT_ERROR
     <-> forallb isWhiteSpace (inputText s) = true) /\
  (forall api,
     error (final (Structured.handleCorrect api s))
     = Structured.EMPTY_INPUT_ERROR
     <-> forallb isWhiteSpace (inputText s) = true).
Proof.
  split; intros api; rewrite <- trim_nil, <- truthy_false.
  - destruct (truthy (trim (inputText s)) && truthy (apiKey s)) eqn:H.
    + destruct (accepted_split s H) as [Hi Hk].
      apply andb_true_iff in H as [Ht _]. rewrite Ht.
      destruct (labeled_accepted_run s api Hi Hk)
        as (_ & _ & [(res & _ & -> & _)|(e & _ & -> & _)]);
        split; discriminate.
    + rewrite (labeled_run_rejected api s H). cbn [final].
      destruct (truthy (trim (inputText s))); cbn; split;
        (reflexivity || discriminate).
  - destruct (truthy (trim (inputText s)) && truthy (apiKey s)) eqn:H.
    + destruct (accepted_split s H) as [Hi Hk].
      apply andb_true_iff in H as [Ht _]. rewrite Ht.
      destruct (structured_accepted_run s api Hi Hk)
        as (_ & _ & [(res & _ & -> & _)|(e & _ & -> & _)]);
        split; discriminate.
    + rewrite (structured_run_rejected api s H). cbn [final].
      destruct (truthy (trim (inputText s))); cbn; split;
        (reflexivity || discriminate).
Qed.

(** ** The input inside the request *)

Lemma includes_middle (p pre post : jsstring) :
  includes p (pre ++ p ++ post) = true.
Proof.
  induction pre as [|c pre IH].
  - change (includes p (p ++ post) = true). apply includes_app_l.
    assert (H : startsWith p p = true).
    { apply startsWith_true. exists []. symmetry. apply app_nil_r. }
    destruct p; cbn [includes]; rewrite H; reflexivity.
  - cbn [app includes]. rewrite IH. apply orb_true_r.
Qed.

(** The two prompts, as fixed text around the quoted input. *)
Lemma labeled_prompt_shape (t : jsstring) :
  Labeled.prompt t
  = before [DQUOTE] (Labeled.prompt []) ++ (DQUOTE :: t ++ [DQUOTE]) ++
    drop (2 + length (before [DQUOTE] (Labeled.prompt [])))
      (Labeled.prompt []).
Proof. vm_compute. reflexivity. Qed.

Lemma structured_prompt_shape (t : jsstring) :
  Structured.prompt t
  = before [DQUOTE] (Structured.prompt []) ++ (DQUOTE :: t ++ [DQUOTE]) ++
    drop (2 + length (before [DQUOTE] (Structured.prompt [])))
      (Structured.prompt []).
Proof. vm_compute. reflexivity. Qed.

Lemma quoted_inj (pre post t1 t2 : jsstring) :
  pre ++ (DQUOTE :: t1 ++ [DQUOTE]) ++ post
  = pre ++ (DQUOTE :: t2 ++ [DQUOTE]) ++ post ->
  t1 = t2.
Proof.
  intros H. apply app_inv_head in H. apply app_inv_tail in H.
  injection H as H. apply app_inv_tail in H. exact H.
Qed.

(** X9: in both variants the prompt of a request holds the input as
    typed, between double quotes, with nothing trimmed, cut or escaped:
    the quoted input occurs in the prompt, and two inputs that give the
    same request are the same input. *)
Theorem request_carries_input (t : jsstring) :
  includes (DQUOTE :: t ++ [DQUOTE]) (Labeled.contents (Labeled.request t))
  = true /\
  includes (DQUOTE :: t ++ [DQUOTE])
    (Structured.contents (Structured.request t)) = true /\
  (forall t', Labeled.request t = Labeled.request t' -> t = t') /\
  (forall t', Structured.request t = Structured.request t' -> t = t').
Proof.
  split; [|split; [|split]].
  - change (Labeled.contents (Labeled.request t)) with (Labeled.prompt t).
    rewrite labeled_prompt_shape. apply includes_middle.
  - change (Structured.contents (Structured.request t))
      with (Structured.prompt t).
    rewrite structured_prompt_shape. apply includes_middle.
  - intros t' H. apply (f_equal Labeled.contents) in H.
    change (Labeled.prompt t = Labeled.prompt t') in H.
    rewrite (labeled_prompt_shape t), (labeled_prompt_shape t') in H.
    exact (quoted_inj _ _ _ _ H).
  - intros t' H. apply (f_equal Structured.contents) in H.
    change (Structured.prompt t = Structured.prompt t') in H.
    rewrite (structured_prompt_shape t), (structured_prompt_shape t') in H.
    exact (quoted_inj _ _ _ _ H).
Qed.

(** ** Invariants of the component *)

Section Traces.
Context {Req : Type}.
Variable begin : State -> Submit Req.
Variable resume : ApiOutcome -> State -> State * list Exn.
Variable okRequest : Req -> Prop.
Variable st0 : Storage.

Hypothesis begin_spec : forall s,
  match begin s with
  | Rejected s' =>
      loading s' = loading s /\ result s' = result s /\ apiKey s' = apiKey s
  | Pending s' key req =>
      loading s' = true /\ result s' = None /\ apiKey s' = apiKey s /\
      key = apiKey s /\ key <> [] /\ okRequest req
  end.

Hypothesis resume_spec : forall o s,
  loading (resume o s).1 = false /\ apiKey (resume o s).1 = apiKey s.

Lemma mount_invariant : Invariant st0 okRequest (@mount Req st0).
Proof.
  unfold Invariant, mount, onMount. cbn [state storage inflight sent].
  destruct (getItem API_KEY_ITEM st0) as [v|] eqn:E; cbn.
  - destruct v as [|c v]; cbn; auto 10.
  - auto 10.
Qed.

Lemma step_invariant (a : App Req) (e : Event) :
  Invariant st0 okRequest a -> Invariant st0 okRequest (step begin resume a e).
Proof.
  intros (Hf & Hr & Hk & Hst & Hsent). unfold step, Invariant.
  destruct (enabled e a) eqn:En; [|repeat split; assumption].
  destruct a as [s st n sn]. cbn [state storage inflight sent] in *.
  destruct e; cbn [fire state storage inflight sent];
    try (repeat split; assumption).
  - (* overlay *)
    unfold clickOverlay. destruct (negb (truthy (apiKey s)));
      repeat split; assumption.
  - (* save *)
    unfold handleSaveApiKey.
    destruct (truthy (trim (tempApiKey s))) eqn:Ht;
      [|repeat split; assumption].
    cbv beta iota. cbn [state storage inflight sent].
    unfold getItem, setItem. rewrite lookup_insert_eq.
    cbn [setTempApiKey setShowSettings setApiKey loading result apiKey
         default from_option].
    split; [assumption|]. split; [assumption|]. split; [reflexivity|].
    split; [|assumption]. right. eexists. split; [reflexivity|].
    split; [apply truthy_true, Ht|apply trim_trimmed].
  - (* paste *)
    destruct o; repeat split; assumption.
  - (* submit *)
    cbn in En. apply negb_true_iff in En.
    pose proof (begin_spec s) as Hb. rewrite En in Hf, Hb.
    destruct (begin s) as [s'|s' key req];
      cbn [state storage inflight sent].
    + destruct Hb as (Hl & Hres & Hkey). rewrite Hl, Hkey.
      repeat split; try assumption. discriminate.
    + destruct Hb as (Hl & Hres & Hkey & -> & Hne & Hok).
      rewrite Hl, Hkey, Hf.
      split; [reflexivity|]. split; [intros _; exact Hres|].
      split; [assumption|]. split; [assumption|].
      constructor; [cbn; auto|assumption].
  - (* settlement *)
    cbn in En. destruct (resume_spec o s) as [Hl Hkey].
    rewrite Hl, Hkey. destruct (loading s); [|subst n; discriminate].
    subst n. repeat split; try assumption. discriminate.
Qed.

Lemma runEvents_invariant (es : list Event) (a : App Req) :
  Invariant st0 okRequest a ->
  Invariant st0 okRequest (runEvents begin resume es a).
Proof.
  unfold runEvents. revert a.
  induction es as [|e es IH]; intros a Ha; [exact Ha|].
  cbn [foldl]. apply IH, step_invariant, Ha.
Qed.

Lemma reachable_invariant (es : list Event) :
  Invariant st0 okRequest (runEvents begin resume es (mount st0)).
Proof. apply runEvents_invariant, mount_invariant. Qed.
End Traces.

Lemma settle_spec (body : Try CorrectionResult) (s : State) :
  loading (settle body s).1 = false /\
  apiKey (settle body s).1 = apiKey s.
Proof. destruct body; cbn; tauto. Qed.

Lemma labeled_begin_spec (s : State) :
  match Labeled.handleCorrect_begin s with
  | Rejected s' =>
      loading s' = loading s /\ result s' = result s /\ apiKey s' = apiKey s
  | Pending s' key req =>
      loading s' = true /\ result s' = None /\ apiKey s' = apiKey s /\
      key = apiKey s /\ key <> [] /\
      exists t, trim t <> [] /\ req = Labeled.request t
  end.
Proof.
  unfold Labeled.handleCorrect_begin.
  destruct (truthy (trim (inputText s))) eqn:Hi; cbn; [|tauto].
  destruct (truthy (apiKey s)) eqn:Hk; cbn; [|tauto].
  apply truthy_true in Hi, Hk. eauto 10.
Qed.

Lemma structured_begin_spec (s : State) :
  match Structured.handleCorrect_begin s with
  | Rejected s' =>
      loading s' = loading s /\ result s' = result s /\ apiKey s' = apiKey s
  | Pending s' key req =>
      loading s' = true /\ result s' = None /\ apiKey s' = apiKey s /\
      key = apiKey s /\ key <> [] /\
      exists t, trim t <> [] /\ req = Structured.request t
  end.
Proof.
  unfold Structured.handleCorrect_begin.
  destruct (truthy (trim (inputText s))) eqn:Hi; cbn; [|tauto].
  destruct (truthy (apiKey s)) eqn:Hk; cbn; [|tauto].
  apply truthy_true in Hi, Hk. eauto 10.
Qed.

Lemma labeled_reachable (st : Storage) (es : list Event) :
  Invariant st (fun req => exists t, trim t <> [] /\ req = Labeled.request t)
    (runEvents Labeled.handleCorrect_begin Labeled.handleCorrect_resume es
       (mount st)).
Proof.
  apply reachable_invariant.
  - exact labeled_begin_spec.
  - intros o s. apply settle_spec.
Qed.

Lemma structured_reachable (st : Storage) (es : list Event) :
  Invariant st
    (fun req => exists t, trim t <> [] /\ req = Structured.request t)
    (runEvents Structured.handleCorrect_begin Structured.handleCorrect_resume
       es (mount st)).
Proof.
  apply reachable_invariant.
  - exact structured_begin_spec.
  - intros o s. apply settle_spec.
Qed.

Lemma single_flight_of_invariant {Req : Type} (st : Storage)
    (P : Req -> Prop) (a : App Req) :
  Invariant st P a ->
  (inflight a <= 1)%nat /\
  (inflight a = 1%nat <-> loading (state a) = true) /\
  (inflight a = 1%nat <-> submitDisabled (render (state a)) = true) /\
  (loading (state a) = true ->
   result (state a) = None /\ panels (render (state a)) = []).
Proof.
  intros (Hf & Hr & _). cbn [render submitDisabled panels].
  rewrite Hf. destruct (loading (state a)).
  - rewrite (Hr eq_refl). repeat split; auto.
  - repeat split; auto; discriminate.
Qed.

(** X10: after the mount and any sequence of events (clicks, typing,
    pastes, settlements of calls, in any order), in either variant, at
    most one correction call awaits settlement; one does exactly when
    loading is on, which is exactly when the submit button is disabled;
    and while loading is on no result is held or shown. *)
Theorem single_flight (st : Storage) (es : list Event) :
  (let a := runEvents Labeled.handleCorrect_begin
              Labeled.handleCorrect_resume es (mount st) in
   (inflight a <= 1)%nat /\
   (inflight a = 1%nat <-> loading (state a) = true) /\
   (inflight a = 1%nat <-> submitDisabled (render (state a)) = true) /\
   (loading (state a) = true ->
    result (state a) = None /\ panels (render (state a)) = [])) /\
  (let a := runEvents Structured.handleCorrect_begin
              Structured.handleCorrect_resume es (mount st) in
   (inflight a <= 1)%nat /\
   (inflight a = 1%nat <-> loading (state a) = true) /\
   (inflight a = 1%nat <-> submitDisabled (render (state a)) = true) /\
   (loading (state a) = true ->
    result (state a) = None /\ panels (render (state a)) = [])).
Proof.
  split; cbv zeta.
  - exact (single_flight_of_invariant _ _ _ (labeled_reachable st es)).
  - exact (single_flight_of_invariant _ _ _ (structured_reachable st es)).
Qed.

(** X11: after the mount and any sequence of events, in either variant,
    the credential in memory equals the one in local storage (the empty
    string when nothing is stored), and the stored credential is either
    the one found at mount or a non-empty string with no white space at
    either end. *)
Theorem credential_mirrors_storage (st : Storage) (es : list Event) :
  (let a := runEvents Labeled.handleCorrect_begin
              Labeled.handleCorrect_resume es (mount st) in
   apiKey (state a) = default [] (getItem API_KEY_ITEM (storage a)) /\
   (getItem API_KEY_ITEM (storage a) = getItem API_KEY_ITEM st \/
    exists v, getItem API_KEY_ITEM (storage a) = Some v /\
              v <> [] /\ trimmed v)) /\
  (let a := runEvents Structured.handleCorrect_begin
              Structured.handleCorrect_resume es (mount st) in
   apiKey (state a) = default [] (getItem API_KEY_ITEM (storage a)) /\
   (getItem API_KEY_ITEM (storage a) = getItem API_KEY_ITEM st \/
    exists v, getItem API_KEY_ITEM (storage a) = Some v /\
              v <> [] /\ trimmed v)).
Proof.
  split; cbv zeta.
  - destruct (labeled_reachable st es) as (_ & _ & Hk & Hs & _). auto.
  - destruct (structured_reachable st es) as (_ & _ & Hk & Hs & _). auto.
Qed.

(** X12: after the mount and any sequence of events, in either variant,
    every request that was sent carried a non-empty credential and was
    built from an input that is not blank. *)
Theorem requests_well_formed (st : Storage) (es : list Event) :
  Forall (fun kr => kr.1 <> [] /\
                    exists t, trim t <> [] /\ kr.2 = Labeled.request t)
    (sent (runEvents Labeled.handleCorrect_begin
             Labeled.handleCorrect_resume es (mount st))) /\
  Forall (fun kr => kr.1 <> [] /\
                    exists t, trim t <> [] /\ kr.2 = Structured.request t)
    (sent (runEvents Structured.handleCorrect_begin
             Structured.handleCorrect_resume es (mount st))).
Proof.
  split.
  - destruct (labeled_reachable st es) as (_ & _ & _ & _ & H). exact H.
  - destruct (structured_reachable st es) as (_ & _ & _ & _ & H). exact H.
Qed.

Lemma settles_of_invariant {Req : Type} (begin : State -> Submit Req)
    (body : ApiOutcome -> Try CorrectionResult) (st : Storage)
    (P : Req -> Prop) (a : App Req) (o : ApiOutcome) :
  Invariant st P a -> inflight a = 1%nat ->
  let a' := step begin (fun o s => settle (body o) s) a (CorrectSettles o) in
  loading (state a) = true /\
  loading (state a') = false /\ inflight a' = 0%nat /\
  ((exists res, body o = ok res /\ result (state a') = Some res /\
                error (state a') = error (state a)) \/
   (exists e, body o = throw e /\ result (state a') = None /\
              error (state a') = GENERIC_ERROR)).
Proof.
  intros (Hf & Hr & _) Hi. unfold step. cbn [enabled]. rewrite Hi.
  cbn [Nat.ltb Nat.leb fire state inflight pred].
  destruct (loading (state a)) eqn:Hl; [|rewrite Hi in Hf; discriminate].
  specialize (Hr eq_refl).
  destruct (body o) as [e|res];
    cbn [settle fst state inflight loading result error setLoading setError
         setResult];
    rewrite Hi; (do 3 (split; [reflexivity|])).
  - right. exists e. auto.
  - left. exists res. auto.
Qed.

(** X7: after the mount and any sequence of events that leaves a call
    awaiting settlement, in either variant, the settlement turns loading
    off, leaves no call pending, and does exactly one of two things: it
    stores a result and leaves the error as it was just before (empty
    unless another handler set one while the call was pending), or it
    sets the generic error and the result stays null. *)
Theorem accepted_submit_outcomes (st : Storage) (es : list Event)
    (o : ApiOutcome) :
  (let a := runEvents Labeled.handleCorrect_begin
              Labeled.handleCorrect_resume es (mount st) in
   inflight a = 1%nat ->
   let a' := step Labeled.handleCorrect_begin Labeled.handleCorrect_resume
               a (CorrectSettles o) in
   loading (state a) = true /\
   loading (state a') = false /\ inflight a' = 0%nat /\
   ((exists res, Labeled.tryBody o = ok res /\
                 result (state a') = Some res /\
                 error (state a') = error (state a)) \/
    (exists e, Labeled.tryBody o = throw e /\ result (state a') = None /\
               error (state a') = GENERIC_ERROR))) /\
  (let a := runEvents Structured.handleCorrect_begin
              Structured.handleCorrect_resume es (mount st) in
   inflight a = 1%nat ->
   let a' := step Structured.handleCorrect_begin
               Structured.handleCorrect_resume a (CorrectSettles o) in
   loading (state a) = true /\
   loading (state a') = false /\ inflight a' = 0%nat /\
   ((exists res, Structured.tryBody o = ok res /\
                 result (state a') = Some res /\
                 error (state a') = error (state a)) \/
    (exists e, Structured.tryBody o = throw e /\ result (state a') = None /\
               error (state a') = GENERIC_ERROR))).
Proof.
  split; cbv zeta; intros Hi.
  - exact (settles_of_invariant Labeled.handleCorrect_begin Labeled.tryBody
             _ _ _ o (labeled_reachable st es) Hi).
  - exact (settles_of_invariant Structured.handleCorrect_begin
             Structured.tryBody _ _ _ o (structured_reachable st es) Hi).
Qed.

Lemma accepted_submit_outcomes_witness :
  inflight (runEvents Labeled.handleCorrect_begin
              Labeled.handleCorrect_resume clickThenFailedPaste
              (mount storedKey)) = 1%nat /\
  (let a' := step Labeled.handleCorrect_begin Labeled.handleCorrect_resume
               (runEvents Labeled.handleCorrect_begin
                  Labeled.handleCorrect_resume clickThenFailedPaste
                  (mount storedKey))
               (CorrectSettles (ApiResolves (Some threeSections))) in
   loading (state a') = false /\
   result (state a') = Some (mkResult (js "A") (js "B") (js "C")) /\
   error (state a') = PASTE_ERROR) /\
  (let a' := step Labeled.handleCorrect_begin Labeled.handleCorrect_resume
               (runEvents Labeled.handleCorrect_begin
                  Labeled.handleCorrect_resume clickThenFailedPaste
                  (mount storedKey))
               (CorrectSettles ApiRejects) in
   result (state a') = None /\ error (state a') = GENERIC_ERROR).
Proof.
  assert (Hi : inflight (runEvents Labeled.handleCorrect_begin
                           Labeled.handleCorrect_resume clickThenFailedPaste
                           (mount storedKey)) = 1%nat)
    by (vm_compute; reflexivity).
  split; [exact Hi|]. cbv zeta. split.
  - destruct (proj1 (accepted_submit_outcomes storedKey clickThenFailedPaste
                       (ApiResolves (Some threeSections))) Hi)
      as (_ & Hl & _ & [(res & Hb & Hr & He)|(e & Hb & _)]).
    + split; [exact Hl|]. split.
      * rewrite Hr. f_equal.
        assert (Hq : Labeled.tryBody (ApiResolves (Some threeSections))
                     = ok (mkResult (js "A") (js "B") (js "C")))
          by (vm_compute; reflexivity).
        rewrite Hq in Hb. injection Hb as <-. reflexivity.
      * rewrite He. vm_compute. reflexivity.
    + exfalso.
      assert (Hq : Labeled.tryBody (ApiResolves (Some threeSections))
                   = ok (mkResult (js "A") (js "B") (js "C")))
        by (vm_compute; reflexivity).
      rewrite Hq in Hb. discriminate Hb.
  - destruct (proj1 (accepted_submit_outcomes storedKey clickThenFailedPaste
                       ApiRejects) Hi)
      as (_ & _ & _ & [(res & Hb & _)|(e & _ & Hr & He)]).
    + exfalso. discriminate Hb.
    + split; assumption.
Defined.

(** Two clicks on the submit button before the call settles send one
    request: the second click finds the button disabled. *)
Example second_click_is_ignored :
  let a := runEvents Labeled.handleCorrect_begin Labeled.handleCorrect_resume
             [ChangeInput (js "He go home."); ClickCorrect; ClickCorrect]
             (mount (setItem API_KEY_ITEM (js "key") ∅)) in
  inflight a = 1%nat /\ length (sent a) = 1%nat /\
  loading (state a) = true.
Proof. vm_compute. auto. Qed.

(** ** What is rendered *)

(** X13: switching the view mode leaves the result as it is; the simple
    view renders the first panel of the detailed view and nothing else,
    and that panel, when there is a result, is the corrected text. *)
Theorem simple_view_is_first_panel (s : State) :
  (forall b, result (setSimpleView b s) = result s) /\
  panels (render (setSimpleView true s))
  = take 1 (panels (render (setSimpleView false s))) /\
  (forall b,
     head (panels (render (setSimpleView b s)))
     = (fun r => (js "Corrected Grammar", correctedText r)) <$> result s) /\
  length (panels (render (setSimpleView false s)))
  = match result s with Some _ => 3%nat | None => 0%nat end.
Proof.
  unfold render. cbn [panels setSimpleView result simpleView].
  destruct (result s); cbn; repeat split; intros []; reflexivity.
Qed.

(** X14: an open settings modal can always be closed: when a credential
    is set the Cancel button is rendered and closes it, and a click on
    the overlay does nothing; when none is set there is no Cancel button
    and a click on the overlay closes it.  Neither touches anything but
    the settings flag. *)
Theorem modal_can_be_closed (s : State) :
  modal (render s) = true ->
  (apiKey s <> [] ->
   cancelButton (render s) = true /\ clickOverlay s = s /\
   clickCancel s = setShowSettings false s /\
   modal (render (clickCancel s)) = false) /\
  (apiKey s = [] ->
   cancelButton (render s) = false /\
   clickOverlay s = setShowSettings false s /\
   modal (render (clickOverlay s)) = false).
Proof.
  cbn [render modal cancelButton]. intros Hm. rewrite Hm.
  unfold clickOverlay, clickCancel. split.
  - intros Hk. apply truthy_true in Hk. rewrite Hk. cbn. tauto.
  - intros ->. cbn. tauto.
Qed.

Lemma modal_can_be_closed_witness :
  (modal (render (clickSettings readyState)) = true /\
   modal (render (clickSettings initialState)) = true) /\
  modal (render (clickCancel (clickSettings readyState))) = false /\
  clickOverlay (clickSettings readyState) = clickSettings readyState /\
  modal (render (clickOverlay (clickSettings initialState))) = false.
Proof.
  pose proof (modal_can_be_closed (clickSettings readyState) eq_refl)
    as [Hk _].
  pose proof (modal_can_be_closed (clickSettings initialState) eq_refl)
    as [_ Hn].
  assert (Hne : apiKey (clickSettings readyState) <> [])
    by (vm_compute; discriminate).
  destruct (Hk Hne) as (_ & Ho & _ & Hc).
  destruct (Hn eq_refl) as (_ & _ & Hc').
  split; [split; reflexivity|]. split; [exact Hc|]. split; [exact Ho|exact Hc'].
Defined.

(** ** JSON objects with plain contents *)

Lemma parse_chars_plain (s rest : jsstring) :
  forallb plainChar s = true ->
  parse_chars (s ++ DQUOTE :: rest) = Some (s, rest).
Proof.
  induction s as [|c s IH]; [reflexivity|].
  cbn [forallb app]. intros H. apply andb_true_iff in H as [Hc Hs].
  unfold plainChar in Hc.
  apply andb_true_iff in Hc as [Hc H3]. apply andb_true_iff in Hc as [H1 H2].
  apply negb_true_iff in H1, H2, H3.
  change (parse_chars (c :: s ++ DQUOTE :: rest))
    with (if c =? DQUOTE then Some ([], s ++ DQUOTE :: rest)
          else if c =? BACKSLASH then
            match s ++ DQUOTE :: rest with
            | [] => None
            | e :: s2 =>
                if e =? code "u" then
                  match s2 with
                  | h1 :: h2 :: h3 :: h4 :: s3 =>
                      match hex4 h1 h2 h3 h4 with
                      | Some u => consumed u (parse_chars s3)
                      | None => None
                      end
                  | _ => None
                  end
                else
                  match escape e with
                  | Some u => consumed u (parse_chars s2)
                  | None => None
                  end
            end
          else if c <? 32 then None
          else consumed c (parse_chars (s ++ DQUOTE :: rest))).
  rewrite H1, H2, H3, (IH Hs). reflexivity.
Qed.

(** A string literal as a value, and as the start of the members of an
    object. *)
Lemma parse_value_quote (f : nat) (s : jsstring) :
  parse_value (S f) (DQUOTE :: s)
  = match parse_chars s with
    | Some (str, r) => Some (JString str, r)
    | None => None
    end.
Proof. reflexivity. Qed.

Lemma parse_members_quote (f : nat) (s : jsstring) :
  parse_members (S f) (DQUOTE :: s)
  = match parse_chars s with
    | None => None
    | Some (key, r) =>
        match skip_ws r with
        | [] => None
        | c :: r1 =>
            if c =? code ":" then
              match parse_value f r1 with
              | None => None
              | Some (v, r2) =>
                  match skip_ws r2 with
                  | [] => None
                  | c' :: r3 =>
                      if c' =? code "," then
                        consumed (key, v) (parse_members f r3)
                      else if c' =? code "}" then Some ([(key, v)], r3)
                      else None
                  end
              end
            else None
        end
    end.
Proof. reflexivity. Qed.

Lemma parse_value_brace (f : nat) (s : jsstring) :
  parse_value (S f) (code "{" :: DQUOTE :: s)
  = match parse_members f (DQUOTE :: s) with
    | Some (ms, r) => Some (JObject ms, r)
    | None => None
    end.
Proof. reflexivity. Qed.

Lemma parse_member (f : nat) (key v : jsstring) (sep : char) (rest : jsstring) :
  forallb plainChar key = true -> forallb plainChar v = true ->
  parse_members (S (S f))
    (literal key ++ code ":" :: literal v ++ sep :: rest)
  = match skip_ws (sep :: rest) with
    | [] => None
    | c' :: r3 =>
        if c' =? code "," then
          consumed (key, JString v) (parse_members (S f) r3)
        else if c' =? code "}" then Some ([(key, JString v)], r3)
        else None
    end.
Proof.
  intros Hk Hv. unfold literal. cbn [app]. rewrite <- !app_assoc. cbn [app].
  rewrite parse_members_quote, (parse_chars_plain key _ Hk).
  change (skip_ws (code ":" :: DQUOTE :: v ++ DQUOTE :: sep :: rest))
    with (code ":" :: DQUOTE :: v ++ DQUOTE :: sep :: rest).
  change (code ":" =? code ":") with true. cbv iota.
  rewrite parse_value_quote, (parse_chars_plain v _ Hv). reflexivity.
Qed.

Lemma JSON_parse_objectText (c w e : jsstring) :
  forallb plainChar c = true -> forallb plainChar w = true ->
  forallb plainChar e = true ->
  JSON_parse (objectText c w e)
  = Some (JObject [(js "correctedText", JString c);
                   (js "wordUsage", JString w);
                   (js "explanation", JString e)]).
Proof.
  intros Hc Hw He. apply (JSON_parse_fuel _ 5 _ []); [|reflexivity].
  unfold objectText.
  change (js "{" ++ literal (js "correctedText") ++ js ":" ++ literal c ++
          js "," ++ literal (js "wordUsage") ++ js ":" ++ literal w ++
          js "," ++ literal (js "explanation") ++ js ":" ++ literal e ++
          js "}")
    with (code "{" :: DQUOTE ::
          (js "correctedText" ++ [DQUOTE]) ++ code ":" :: literal c ++
          code "," ::
          (literal (js "wordUsage") ++ code ":" :: literal w ++
           code "," ::
           (literal (js "explanation") ++ code ":" :: literal e ++
            code "}" :: []))).
  rewrite parse_value_brace.
  change (DQUOTE :: (js "correctedText" ++ [DQUOTE]) ++ ?x)
    with (literal (js "correctedText") ++ x).
  rewrite (parse_member 2 (js "correctedText") c) by (assumption || reflexivity).
  change (skip_ws (code "," :: ?x)) with (code "," :: x).
  change (code "," =? code ",") with true. cbv iota.
  rewrite (parse_member 1 (js "wordUsage") w) by (assumption || reflexivity).
  change (skip_ws (code "," :: ?x)) with (code "," :: x).
  change (code "," =? code ",") with true. cbv iota.
  rewrite (parse_member 0 (js "explanation") e) by (assumption || reflexivity).
  reflexivity.
Qed.

(** X15: in the structured variant, the JSON text of an object whose
    three fields are string literals made of plain characters (no double
    quote, no backslash, no control character) decodes to exactly those
    three strings; when the call resolves with that text, whatever state
    the component is in at settlement, the handler stores them as the
    result, turns loading off and logs nothing, and leaves every other
    field as it was, the error included. *)
Theorem structured_plain_roundtrip (s : State) (c w e : jsstring) :
  forallb plainChar c = true -> forallb plainChar w = true ->
  forallb plainChar e = true ->
  Structured.parseResponse (objectText c w e) = ok (mkResult c w e) /\
  Structured.handleCorrect_resume (ApiResolves (Some (objectText c w e))) s
  = (setLoading false (setResult (Some (mkResult c w e)) s), []) /\
  result (Structured.handleCorrect_resume
            (ApiResolves (Some (objectText c w e))) s).1
  = Some (mkResult c w e) /\
  loading (Structured.handleCorrect_resume
             (ApiResolves (Some (objectText c w e))) s).1 = false /\
  error (Structured.handleCorrect_resume
           (ApiResolves (Some (objectText c w e))) s).1 = error s.
Proof.
  intros Hc Hw He.
  assert (Hp : Structured.parseResponse (objectText c w e)
               = ok (mkResult c w e)).
  { unfold Structured.parseResponse.
    rewrite (JSON_parse_objectText c w e Hc Hw He). reflexivity. }
  split; [exact Hp|].
  unfold Structured.handleCorrect_resume, Structured.tryBody.
  rewrite (tryBody_ok _ _ (structured_parseResponse_nonempty _ _ Hp)).
  rewrite Hp, settle_ok. cbn. tauto.
Qed.

Lemma structured_plain_roundtrip_witness :
  (forallb plainChar (js "He goes home.") = true /\
   forallb plainChar (js "go -> goes") = true /\
   forallb plainChar (js " third person ") = true) /\
  result (Structured.handleCorrect_resume
            (ApiResolves
               (Some (objectText (js "He goes home.") (js "go -> goes")
                        (js " third person "))))
            pasteFailedWhilePending).1
  = Some (mkResult (js "He goes home.") (js "go -> goes")
            (js " third person ")) /\
  error (Structured.handleCorrect_resume
           (ApiResolves
              (Some (objectText (js "He goes home.") (js "go -> goes")
                       (js " third person "))))
           pasteFailedWhilePending).1
  = PASTE_ERROR.
Proof.
  destruct (structured_plain_roundtrip pasteFailedWhilePending
              (js "He goes home.") (js "go -> goes") (js " third person ")
              eq_refl eq_refl eq_refl)
    as (_ & _ & Hr & _ & He).
  split; [repeat split; reflexivity|]. split; [exact Hr|exact He].
Defined.

(** ** Members the schema does not read *)

Lemma get_other (ms1 ms2 : list (jsstring * json)) (k key : jsstring)
    (v : json) :
  k <> key -> get (ms1 ++ (k, v) :: ms2) key = get (ms1 ++ ms2) key.
Proof.
  intros Hne. induction ms1 as [|[k1 v1] ms1 IH]; cbn [app get].
  - rewrite bool_decide_eq_false_2 by exact Hne.
    destruct (get ms2 key); reflexivity.
  - rewrite IH. reflexivity.
Qed.

(** X16: the schema reads three members and nothing else: a member under
    any other name, wherever it stands in the object and whatever its
    value, changes neither whether the object is accepted nor the record
    returned. *)
Theorem schema_ignores_other_members (ms1 ms2 : list (jsstring * json))
    (k : jsstring) (v : json) :
  k ∉ schemaKeys ->
  Structured.correctionSchema_parse (JObject (ms1 ++ (k, v) :: ms2))
  = Structured.correctionSchema_parse (JObject (ms1 ++ ms2)).
Proof.
  intros Hk.
  assert (H1 : k <> js "correctedText")
    by (intros ->; apply Hk; apply (bool_decide_unpack _); reflexivity).
  assert (H2 : k <> js "wordUsage")
    by (intros ->; apply Hk; apply (bool_decide_unpack _); reflexivity).
  assert (H3 : k <> js "explanation")
    by (intros ->; apply Hk; apply (bool_decide_unpack _); reflexivity).
  unfold Structured.correctionSchema_parse.
  rewrite !get_other by assumption. reflexivity.
Qed.

Lemma schema_ignores_other_members_witness :
(js "confidence" ∉ schemaKeys) /\
  Structured.correctionSchema_parse
    (JObject [(js "correctedText", JString (js "A"));
              (js "confidence", JNumber (js "0.9"));
              (js "wordUsage", JString (js "B"));
              (js "explanation", JString (js "C"))])
  = ok (mkResult (js "A") (js "B") (js "C")).
Proof.
  assert (Hk : js "confidence" ∉ schemaKeys).
  { intros H. apply (bool_decide_pack _) in H. vm_compute in H. exact H. }
  split; [exact Hk|].
  refine (eq_trans (schema_ignores_other_members
                      [(js "correctedText", JString (js "A"))]
                      [(js "wordUsage", JString (js "B"));
                       (js "explanation", JString (js "C"))]
                      (js "confidence") (JNumber (js "0.9")) Hk) _).
  reflexivity.
Defined.
